(** * ACP web UI: the per-session protocol state machine of [App.tsx]

    A shallow embedding of [web-ui/src/App.tsx] (the [WsManager] class and the
    handlers of the [App] component) and of the records of the types module,
    followed by the properties of the connection manager, the stream
    aggregator and the permission coordinator.

    Conventions of the embedding:
    - React state ([sessions], [activeId], [pendingPermission]) and the
      private maps of [WsManager] are the fields of one record, [World];
      a functional state update [setSessions (prev => ...)] is applied at once.
    - A [WebSocket] is an object of the browser: the world holds them in
      [heap], and the manager's map, the displayed permission request and the
      event handlers refer to them by index, so that aliasing is kept.
    - [Date.now ()] and [Math.random ()] read an oracle held in the world
      ([Date_now], [Math_random]), one draw per call. *)

From Stdlib Require Import String Ascii List NArith Bool DecimalString.
From stdpp Require Import base option list strings gmap.
Import ListNotations.

Local Open Scope string_scope.

(** ** JavaScript values used by the code *)

(** [x === y] on strings. *)
Definition str_eq (a b : string) : bool := String.eqb a b.

(** Truthiness of a [string | undefined] value: [undefined] and the empty
    string are falsy. *)
Definition truthy (o : option string) : bool :=
  match o with
  | Some s => negb (str_eq s "")
  | None => false
  end.

(** [a || b] on [string | undefined] values. *)
Definition js_or (a b : option string) : option string :=
  if truthy a then a else b.

(** [a === b] on [string | undefined] values. *)
Definition opt_str_eq (a b : option string) : bool :=
  match a, b with
  | Some x, Some y => str_eq x y
  | None, None => true
  | _, _ => false
  end.

(** [unknown] payloads are kept as their JSON text. *)
Definition unknown := string.

(** ** The types module *)

Record ToolCall := {
  tc_title : string;
  tc_description : option string;
  tc_input : option unknown;
  tc_name : option string
}.

Record PermissionOption := {
  po_title : string;
  po_description : option string
}.

(** [toolCall] is read with [?.] by the code, hence optional here. *)
Record PermissionRequest := {
  requestId : string;
  pr_sessionId : string;
  options : list PermissionOption;
  pr_toolCall : option ToolCall
}.

Record AgentInfo := { ai_name : string; ai_version : string }.

Record ModelState := {
  selected : option string;
  available : option (list string)
}.

Inductive MessageRole := user | assistant | tool | system.

Inductive ToolStatus := pending | allowed | denied | cancelled.

Definition ToolStatus_eqb (a b : ToolStatus) : bool :=
  match a, b with
  | pending, pending | allowed, allowed
  | denied, denied | cancelled, cancelled => true
  | _, _ => false
  end.

Record MsgToolCall := { title : string; input : option unknown }.

Record ToolResult := { tr_status : ToolStatus; output : option string }.

Module ChatMessage.
Record t := {
  id : string;
  role : MessageRole;
  content : string;
  timestamp : N;
  toolCall : option MsgToolCall;
  toolResult : option ToolResult;
  isThinking : option bool;
  stopReason : option string
}.

(** [{ ...m, content: c }] *)
Definition with_content (c : string) (m : t) : t :=
  {| id := id m; role := role m; content := c; timestamp := timestamp m;
     toolCall := toolCall m; toolResult := toolResult m;
     isThinking := isThinking m; stopReason := stopReason m |}.

(** [{ ...m, toolResult: r }] *)
Definition with_toolResult (r : option ToolResult) (m : t) : t :=
  {| id := id m; role := role m; content := content m;
     timestamp := timestamp m; toolCall := toolCall m; toolResult := r;
     isThinking := isThinking m; stopReason := stopReason m |}.
End ChatMessage.

Inductive SessionStatus := disconnected | connecting | connected | error.

Module Session.
Record t := {
  id : string;
  name : string;
  wsUrl : string;
  token : string;
  messages : list ChatMessage.t;
  status : SessionStatus;
  agentInfo : option AgentInfo;
  sessionId : option string;
  createdAt : N;
  models : option ModelState;
  cwd : option string
}.

(** [{ ...s, status: st }] *)
Definition with_status (st : SessionStatus) (s : t) : t :=
  {| id := id s; name := name s; wsUrl := wsUrl s; token := token s;
     messages := messages s; status := st; agentInfo := agentInfo s;
     sessionId := sessionId s; createdAt := createdAt s;
     models := models s; cwd := cwd s |}.

(** [{ ...s, sessionId: r }] *)
Definition with_sessionId (r : option string) (s : t) : t :=
  {| id := id s; name := name s; wsUrl := wsUrl s; token := token s;
     messages := messages s; status := status s; agentInfo := agentInfo s;
     sessionId := r; createdAt := createdAt s;
     models := models s; cwd := cwd s |}.

(** [{ ...s, agentInfo: a }] *)
Definition with_agentInfo (a : option AgentInfo) (s : t) : t :=
  {| id := id s; name := name s; wsUrl := wsUrl s; token := token s;
     messages := messages s; status := status s; agentInfo := a;
     sessionId := sessionId s; createdAt := createdAt s;
     models := models s; cwd := cwd s |}.

(** [{ ...s, messages: ms }] *)
Definition with_messages (ms : list ChatMessage.t) (s : t) : t :=
  {| id := id s; name := name s; wsUrl := wsUrl s; token := token s;
     messages := ms; status := status s; agentInfo := agentInfo s;
     sessionId := sessionId s; createdAt := createdAt s;
     models := models s; cwd := cwd s |}.

(** [{ ...s, name: n }] *)
Definition with_name (n : string) (s : t) : t :=
  {| id := id s; name := n; wsUrl := wsUrl s; token := token s;
     messages := messages s; status := status s; agentInfo := agentInfo s;
     sessionId := sessionId s; createdAt := createdAt s;
     models := models s; cwd := cwd s |}.
End Session.

Record ConnectionConfig := { cc_wsUrl : string; cc_token : string }.

(** ** Wire frames *)

Inductive Outcome := allow | deny.

(** The objects handed to [JSON.stringify] before [ws.send]. *)
Inductive Frame :=
| F_connect
| F_disconnect
| F_new_session
| F_prompt (text : string)
| F_cancel
| F_permission_response (requestId : string) (outcome : Outcome).

(** One element of [payload.updates]: its [type] tag and the two fields the
    aggregator reads. *)
Record SessionUpdate := {
  u_type : string;
  u_delta : option string;
  u_text : option string
}.

(** A decoded inbound frame, [{ type, payload }], with the payload as the
    [as] casts of [handleMessage] read it; [M_other] is any other [type]. *)
Inductive Message :=
| M_status (connected_ : bool) (agentInfo_ : option AgentInfo)
| M_session_created (sessionId_ : string)
| M_session_update (updates : option (list SessionUpdate))
| M_permission_request (p : PermissionRequest)
| M_prompt_complete
| M_error (message : string)
| M_other (type : string).

(** ** The browser's WebSocket objects *)

Definition CONNECTING : nat := 0.
Definition OPEN : nat := 1.
Definition CLOSING : nat := 2.
Definition CLOSED : nat := 3.

(** [owner] is the [session.id] captured by the four handlers that [connect]
    attaches to the socket; [sent] lists the frames handed to the transport. *)
Record WebSocket := {
  url : string;
  readyState : nat;
  sent : list Frame;
  owner : string
}.

(** A socket object is named by its index in the heap. *)
Abbreviation handle := nat.

Definition with_readyState (r : nat) (ws : WebSocket) : WebSocket :=
  {| url := url ws; readyState := r; sent := sent ws; owner := owner ws |}.

Definition with_sent (fs : list Frame) (ws : WebSocket) : WebSocket :=
  {| url := url ws; readyState := readyState ws; sent := fs;
     owner := owner ws |}.

(** [ws.send (data)] of the WebSocket standard: an [InvalidStateError] while
    the socket is connecting ([None]); the frame goes to the transport when
    the socket is open and is discarded when it is closing or closed. *)
Definition WebSocket_send (f : Frame) (ws : WebSocket) : option WebSocket :=
  if (readyState ws =? CONNECTING)%nat then None
  else if (readyState ws =? OPEN)%nat
       then Some (with_sent (sent ws ++ [f]) ws)
       else Some ws.

(** [ws.close ()]: starts the closing handshake unless the socket is already
    closing or closed; the close event comes later. *)
Definition WebSocket_close (ws : WebSocket) : WebSocket :=
  if (readyState ws <=? OPEN)%nat then with_readyState CLOSING ws else ws.

(** ** The state of the page *)

Record World := {
  sessions : list Session.t;
  activeId : option string;
  pendingPermission : option (PermissionRequest * handle);
  sockets : gmap string handle;
  thinkingIds : gmap string string;
  streamingIds : gmap string string;
  heap : list WebSocket;
  tick : nat;
  Date_now : nat -> N;
  Math_random : nat -> string
}.

Definition with_sessions (f : list Session.t -> list Session.t) (w : World)
  : World :=
  {| sessions := f (sessions w); activeId := activeId w;
     pendingPermission := pendingPermission w; sockets := sockets w;
     thinkingIds := thinkingIds w; streamingIds := streamingIds w;
     heap := heap w; tick := tick w; Date_now := Date_now w;
     Math_random := Math_random w |}.

Definition with_activeId (a : option string) (w : World) : World :=
  {| sessions := sessions w; activeId := a;
     pendingPermission := pendingPermission w; sockets := sockets w;
     thinkingIds := thinkingIds w; streamingIds := streamingIds w;
     heap := heap w; tick := tick w; Date_now := Date_now w;
     Math_random := Math_random w |}.

Definition with_pendingPermission (p : option (PermissionRequest * handle))
  (w : World) : World :=
  {| sessions := sessions w; activeId := activeId w;
     pendingPermission := p; sockets := sockets w;
     thinkingIds := thinkingIds w; streamingIds := streamingIds w;
     heap := heap w; tick := tick w; Date_now := Date_now w;
     Math_random := Math_random w |}.

Definition with_sockets (f : gmap string handle -> gmap string handle)
  (w : World) : World :=
  {| sessions := sessions w; activeId := activeId w;
     pendingPermission := pendingPermission w; sockets := f (sockets w);
     thinkingIds := thinkingIds w; streamingIds := streamingIds w;
     heap := heap w; tick := tick w; Date_now := Date_now w;
     Math_random := Math_random w |}.

Definition with_thinkingIds (f : gmap string string -> gmap string string)
  (w : World) : World :=
  {| sessions := sessions w; activeId := activeId w;
     pendingPermission := pendingPermission w; sockets := sockets w;
     thinkingIds := f (thinkingIds w); streamingIds := streamingIds w;
     heap := heap w; tick := tick w; Date_now := Date_now w;
     Math_random := Math_random w |}.

Definition with_streamingIds (f : gmap string string -> gmap string string)
  (w : World) : World :=
  {| sessions := sessions w; activeId := activeId w;
     pendingPermission := pendingPermission w; sockets := sockets w;
     thinkingIds := thinkingIds w; streamingIds := f (streamingIds w);
     heap := heap w; tick := tick w; Date_now := Date_now w;
     Math_random := Math_random w |}.

Definition with_heap (f : list WebSocket -> list WebSocket) (w : World)
  : World :=
  {| sessions := sessions w; activeId := activeId w;
     pendingPermission := pendingPermission w; sockets := sockets w;
     thinkingIds := thinkingIds w; streamingIds := streamingIds w;
     heap := f (heap w); tick := tick w; Date_now := Date_now w;
     Math_random := Math_random w |}.

Definition with_tick (n : nat) (w : World) : World :=
  {| sessions := sessions w; activeId := activeId w;
     pendingPermission := pendingPermission w; sockets := sockets w;
     thinkingIds := thinkingIds w; streamingIds := streamingIds w;
     heap := heap w; tick := n; Date_now := Date_now w;
     Math_random := Math_random w |}.

(** ** Identifiers and names *)

Definition digit36 (d : N) : ascii :=
  if (d <? 10)%N then ascii_of_N (48 + d) else ascii_of_N (87 + d).

Fixpoint toString36_aux (fuel : nat) (n : N) (acc : string) : string :=
  let acc' := String (digit36 (n mod 36)) acc in
  match fuel with
  | O => acc'
  | S fuel' =>
      if (n / 36 =? 0)%N then acc' else toString36_aux fuel' (n / 36) acc'
  end.

(** [n.toString (36)] for a non-negative integer [n]; a number below
    [2 ^ (k + 1)] has at most [k + 1] digits in base 36. *)
Definition toString36 (n : N) : string :=
  toString36_aux (N.to_nat (N.log2 n)) n "".

(** [Date.now ()]: one draw of the clock oracle. *)
Definition now (w : World) : N * World :=
  (Date_now w (tick w), with_tick (S (tick w)) w).

(** [makeId ()]: [Date.now ().toString (36)] followed by
    [Math.random ().toString (36).slice (2, 7)], the latter read from the
    oracle as the string it is. *)
Definition makeId (w : World) : string * World :=
  (toString36 (Date_now w (tick w)) +:+ Math_random w (tick w),
   with_tick (S (tick w)) w).

(** [`Session ${index + 1}`] *)
Definition sessionName (index : nat) : string :=
  "Session " +:+ NilEmpty.string_of_uint (Nat.to_uint (index + 1)).

Definition hex_digit (d : N) : ascii :=
  if (d <? 10)%N then ascii_of_N (48 + d) else ascii_of_N (55 + d).

Definition uri_unreserved (c : ascii) : bool :=
  let n := N_of_ascii c in
  ((48 <=? n) && (n <=? 57) || (65 <=? n) && (n <=? 90)
   || (97 <=? n) && (n <=? 122))%N
  || existsb (Ascii.eqb c)
       ["-"; "_"; "."; "!"; "~"; "*"; "'"; "("; ")"]%char.

(** [encodeURIComponent] on the UTF-8 bytes of its argument. *)
Fixpoint encodeURIComponent (s : string) : string :=
  match s with
  | EmptyString => EmptyString
  | String c rest =>
      if uri_unreserved c then String c (encodeURIComponent rest)
      else String "%" (String (hex_digit (N_of_ascii c / 16))
             (String (hex_digit (N_of_ascii c mod 16))
                (encodeURIComponent rest)))
  end.

(** ** Storage *)

(** [loadSessions ()]; the argument is what [JSON.parse] made of the stored
    item, [None] when the item is absent, empty or not parseable. *)
Definition loadSessions (parsed : option (list Session.t)) : list Session.t :=
  match parsed with
  | None => []
  | Some l => List.map (fun s => Session.with_status disconnected s) l
  end.

(** ** State updates of the [App] component *)

Definition setSession (id : string) (fn : Session.t -> Session.t) (w : World)
  : World :=
  with_sessions
    (List.map (fun s => if str_eq (Session.id s) id then fn s else s)) w.

Definition addMessage (sessionId : string) (msg : ChatMessage.t) (w : World)
  : World :=
  with_sessions
    (List.map (fun s =>
       if str_eq (Session.id s) sessionId
       then Session.with_messages (Session.messages s ++ [msg]) s
       else s)) w.

Definition showPermission (req : PermissionRequest) (ws : handle) (w : World)
  : World :=
  with_pendingPermission (Some (req, ws)) w.

(** ** WsManager *)

(** The three callbacks given to the constructor in [App]. *)
Definition onSetSession := setSession.
Definition onAddMessage := addMessage.
Definition onPermission := showPermission.

(** [ws.send (JSON.stringify (f))] on the socket object [ws] of the heap;
    [None] when the call throws. *)
Definition ws_send (ws : handle) (f : Frame) (w : World) : option World :=
  match heap w !! ws with
  | Some o =>
      match WebSocket_send f o with
      | Some o' => Some (with_heap (fun h => <[ws := o']> h) w)
      | None => None
      end
  | None => None
  end.

(** [ws.close ()] on the socket object [ws] of the heap. *)
Definition ws_close (ws : handle) (w : World) : World :=
  with_heap (fun h => alter WebSocket_close ws h) w.

(** Handlers attached by [connect]; [session_id] is the captured
    [session.id] and [ws] the captured socket. *)
Definition ws_onopen (ws : handle) (w : World) : World :=
  match ws_send ws F_connect w with
  | Some w' => w'
  | None => w
  end.

Definition ws_onerror (session_id : string) (w : World) : World :=
  onSetSession session_id (fun s => Session.with_status error s) w.

Definition ws_onclose (session_id : string) (w : World) : World :=
  let w1 := with_sockets (fun m => delete session_id m) w in
  onSetSession session_id
    (fun s => Session.with_sessionId None (Session.with_status disconnected s))
    w1.

Definition connect (session : Session.t) (w : World) : World :=
  let existing := sockets w !! Session.id session ≫= (fun h => heap w !! h) in
  let live :=
    match existing with
    | Some o => (readyState o <=? OPEN)%nat
    | None => false
    end in
  if live then w
  else
    let w1 :=
      onSetSession (Session.id session)
        (fun s => Session.with_status connecting s) w in
    let url_ :=
      if truthy (Some (Session.token session))
      then Session.wsUrl session +:+ "?token="
           +:+ encodeURIComponent (Session.token session)
      else Session.wsUrl session in
    let ws := length (heap w1) in
    let w2 :=
      with_heap
        (fun h => (h ++ [{| url := url_; readyState := CONNECTING;
                            sent := []; owner := Session.id session |}])%list)
        w1 in
    with_sockets (fun m => <[Session.id session := ws]> m) w2.

Definition disconnect (localId : string) (w : World) : World :=
  match sockets w !! localId with
  | Some ws =>
      let w1 :=
        match ws_send ws F_disconnect w with
        | Some w' => w'
        | None => w
        end in
      ws_close ws w1
  | None => w
  end.

(** On an open socket [ws.send] does not throw. *)
Definition send (localId : string) (data : Frame) (w : World) : bool * World :=
  match sockets w !! localId with
  | None => (false, w)
  | Some ws =>
      match heap w !! ws with
      | None => (false, w)
      | Some o =>
          if negb (readyState o =? OPEN)%nat then (false, w)
          else (true, default w (ws_send ws data w))
      end
  end.

Definition isOpen (localId : string) (w : World) : bool :=
  match sockets w !! localId ≫= (fun h => heap w !! h) with
  | Some o => (readyState o =? OPEN)%nat
  | None => false
  end.

(** [m.has (k)] on a [Map]. *)
Definition Map_has {V : Type} (m : gmap string V) (k : string) : bool :=
  match m !! k with
  | Some _ => true
  | None => false
  end.

(** [a || d] where [d] is a string literal. *)
Definition or_default (a : option string) (d : string) : string :=
  match js_or a (Some d) with
  | Some s => s
  | None => d
  end.

(** The body of the [for] loop of [handleUpdates]. *)
Definition handleUpdate (localId : string) (w : World) (update : SessionUpdate)
  : World :=
  let t := u_type update in
  if str_eq t "text_delta" || str_eq t "text" then
    let delta := or_default (js_or (u_delta update) (u_text update)) "" in
    if negb (truthy (Some delta)) then w
    else
      (* Remove thinking indicator *)
      let thinkId := thinkingIds w !! localId in
      let w1 :=
        if truthy thinkId then
          let w' :=
            onSetSession localId
              (fun s =>
                 Session.with_messages
                   (List.filter
                      (fun m => negb (opt_str_eq (Some (ChatMessage.id m))
                                        thinkId))
                      (Session.messages s)) s) w in
          with_thinkingIds (fun m => delete localId m) w'
        else w in
      let streamId := streamingIds w1 !! localId in
      if truthy streamId then
        (* Append to existing streaming message *)
        onSetSession localId
          (fun s =>
             Session.with_messages
               (List.map
                  (fun m =>
                     if opt_str_eq (Some (ChatMessage.id m)) streamId
                     then ChatMessage.with_content
                            (ChatMessage.content m +:+ delta) m
                     else m)
                  (Session.messages s)) s) w1
      else
        (* Create new streaming message *)
        let '(id, w2) := makeId w1 in
        let w3 := with_streamingIds (fun m => <[localId := id]> m) w2 in
        let '(ts, w4) := now w3 in
        onAddMessage localId
          {| ChatMessage.id := id; ChatMessage.role := assistant;
             ChatMessage.content := delta; ChatMessage.timestamp := ts;
             ChatMessage.toolCall := None; ChatMessage.toolResult := None;
             ChatMessage.isThinking := None;
             ChatMessage.stopReason := None |} w4
  else if str_eq t "thinking_start" then
    if negb (Map_has (thinkingIds w) localId) then
      let '(id, w1) := makeId w in
      let w2 := with_thinkingIds (fun m => <[localId := id]> m) w1 in
      let '(ts, w3) := now w2 in
      onAddMessage localId
        {| ChatMessage.id := id; ChatMessage.role := assistant;
           ChatMessage.content := ""; ChatMessage.timestamp := ts;
           ChatMessage.toolCall := None; ChatMessage.toolResult := None;
           ChatMessage.isThinking := Some true;
           ChatMessage.stopReason := None |} w3
    else w
  else w.

Definition handleUpdates (localId : string) (updates : list SessionUpdate)
  (w : World) : World :=
  fold_left (handleUpdate localId) updates w.

(** How a handler ends: normally, or by an exception raised in the world
    reached so far. *)
Inductive completion :=
| Normal (w : World)
| Thrown (w : World).

Definition handleMessage (localId : string) (msg : Message) (ws : handle)
  (w : World) : completion :=
  match msg with
  | M_status p_connected p_agentInfo =>
      if p_connected then
        let w1 :=
          onSetSession localId
            (fun s =>
               Session.with_agentInfo p_agentInfo
                 (Session.with_status connected s)) w in
        match ws_send ws F_new_session w1 with
        | Some w2 => Normal w2
        | None => Thrown w1
        end
      else
        Normal
          (onSetSession localId
             (fun s =>
                Session.with_sessionId None
                  (Session.with_status disconnected s)) w)
  | M_session_created p_sessionId =>
      Normal
        (onSetSession localId
           (fun s => Session.with_sessionId (Some p_sessionId) s) w)
  | M_session_update p_updates =>
      Normal (handleUpdates localId (default [] p_updates) w)
  | M_permission_request p =>
      let w1 := onPermission p ws w in
      let '(id, w2) := makeId w1 in
      let '(ts, w3) := now w2 in
      Normal
        (onAddMessage localId
           {| ChatMessage.id := id; ChatMessage.role := tool;
              ChatMessage.content :=
                or_default (tc_title <$> pr_toolCall p) "Tool call";
              ChatMessage.timestamp := ts;
              ChatMessage.toolCall :=
                Some {| title := or_default (tc_title <$> pr_toolCall p)
                                   "Permission Required";
                        input := pr_toolCall p ≫= tc_input |};
              ChatMessage.toolResult :=
                Some {| tr_status := pending; output := None |};
              ChatMessage.isThinking := None;
              ChatMessage.stopReason := None |} w3)
  | M_prompt_complete =>
      (* Flush any streaming message and remove thinking indicator *)
      let thinkId := thinkingIds w !! localId in
      let w1 :=
        if truthy thinkId then
          let w' :=
            onSetSession localId
              (fun s =>
                 Session.with_messages
                   (List.filter
                      (fun m => negb (opt_str_eq (Some (ChatMessage.id m))
                                        thinkId))
                      (Session.messages s)) s) w in
          with_thinkingIds (fun m => delete localId m) w'
        else w in
      (* Mark the last streaming message as complete *)
      Normal (with_streamingIds (fun m => delete localId m) w1)
  | M_error p_message =>
      let '(id, w1) := makeId w in
      let '(ts, w2) := now w1 in
      Normal
        (onAddMessage localId
           {| ChatMessage.id := id; ChatMessage.role := system;
              ChatMessage.content := "Error: " +:+ p_message;
              ChatMessage.timestamp := ts;
              ChatMessage.toolCall := None; ChatMessage.toolResult := None;
              ChatMessage.isThinking := None;
              ChatMessage.stopReason := None |} w2)
  | M_other _ => Normal w
  end.

(** [ws.onmessage]: [data] is [None] when [JSON.parse] throws; the [catch]
    logs and keeps the world as the exception left it. *)
Definition ws_onmessage (session_id : string) (ws : handle)
  (data : option Message) (w : World) : World :=
  match data with
  | None => w
  | Some msg =>
      match handleMessage session_id msg ws w with
      | Normal w' => w'
      | Thrown w' => w'
      end
  end.

(** ** Handlers of the [App] component

    [activeId] is a string or [null]; [if (!activeId) return] also leaves on
    the empty string. *)

Definition handleNewSession (config : ConnectionConfig) (w : World)
  : Session.t * World :=
  let '(id, w1) := makeId w in
  let '(ts, w2) := now w1 in
  let newSession :=
    {| Session.id := id;
       Session.name := sessionName (length (sessions w));
       Session.wsUrl := cc_wsUrl config; Session.token := cc_token config;
       Session.messages := []; Session.status := disconnected;
       Session.agentInfo := None; Session.sessionId := None;
       Session.createdAt := ts; Session.models := None;
       Session.cwd := None |} in
  let w3 := with_sessions (fun prev => (prev ++ [newSession])%list) w2 in
  (newSession, with_activeId (Some id) w3).

Definition handleDeleteSession (id : string) (w : World) : World :=
  let w1 := disconnect id w in
  let remaining :=
    List.filter (fun s => negb (str_eq (Session.id s) id)) (sessions w1) in
  let w2 :=
    if opt_str_eq (activeId w) (Some id)
    then with_activeId (Session.id <$> last remaining) w1
    else w1 in
  with_sessions (fun _ => remaining) w2.

Definition handleRenameSession (id : string) (name : string) (w : World)
  : World :=
  with_sessions
    (List.map (fun s =>
       if str_eq (Session.id s) id then Session.with_name name s else s)) w.

Definition handleSelectSession (id : string) (w : World) : World :=
  with_activeId (Some id) w.

Definition handleConnect (id : string) (w : World) : World :=
  match List.find (fun s => str_eq (Session.id s) id) (sessions w) with
  | Some session => connect session w
  | None => w
  end.

Definition handleDisconnect (id : string) (w : World) : World :=
  disconnect id w.

Definition handleSendPrompt (text : string) (w : World) : World :=
  match activeId w with
  | None => w
  | Some active =>
      if negb (truthy (Some active)) then w else
      let '(id, w1) := makeId w in
      let '(ts, w2) := now w1 in
      let w3 :=
        addMessage active
          {| ChatMessage.id := id; ChatMessage.role := user;
             ChatMessage.content := text; ChatMessage.timestamp := ts;
             ChatMessage.toolCall := None; ChatMessage.toolResult := None;
             ChatMessage.isThinking := None;
             ChatMessage.stopReason := None |} w2 in
      snd (send active (F_prompt text) w3)
  end.

Definition handleCancel (w : World) : World :=
  match activeId w with
  | None => w
  | Some active =>
      if negb (truthy (Some active)) then w
      else snd (send active F_cancel w)
  end.

Definition handleClearMessages (w : World) : World :=
  match activeId w with
  | None => w
  | Some active =>
      if negb (truthy (Some active)) then w
      else
        with_sessions
          (List.map (fun s =>
             if str_eq (Session.id s) active
             then Session.with_messages [] s else s)) w
  end.

(** [m.toolResult?.status === 'pending'] *)
Definition is_pending (m : ChatMessage.t) : bool :=
  match ChatMessage.toolResult m with
  | Some r => ToolStatus_eqb (tr_status r) pending
  | None => false
  end.

(** [{ ...m, toolResult: { ...m.toolResult, status: st } }] *)
Definition set_toolResult_status (st : ToolStatus) (m : ChatMessage.t)
  : ChatMessage.t :=
  ChatMessage.with_toolResult
    (Some {| tr_status := st;
             output := ChatMessage.toolResult m ≫= output |}) m.

(** The message update of [handlePermissionAllow]. *)
Definition allow_message (request : PermissionRequest) (m : ChatMessage.t)
  : ChatMessage.t :=
  if is_pending m
     && opt_str_eq (title <$> ChatMessage.toolCall m)
          (tc_title <$> pr_toolCall request)
  then set_toolResult_status allowed m
  else m.

(** The message update of [handlePermissionDeny]. *)
Definition deny_message (m : ChatMessage.t) : ChatMessage.t :=
  if is_pending m then set_toolResult_status denied m else m.

(** An exception of [ws.send] leaves the handler before any state update. *)
Definition handlePermissionAllow (w : World) : World :=
  match pendingPermission w with
  | None => w
  | Some (request, ws) =>
      match ws_send ws (F_permission_response (requestId request) allow) w with
      | None => w
      | Some w1 =>
          (* Update the tool message status *)
          let w2 :=
            with_sessions
              (List.map (fun s =>
                 Session.with_messages
                   (List.map (allow_message request) (Session.messages s)) s))
              w1 in
          with_pendingPermission None w2
      end
  end.

Definition handlePermissionDeny (w : World) : World :=
  match pendingPermission w with
  | None => w
  | Some (request, ws) =>
      match ws_send ws (F_permission_response (requestId request) deny) w with
      | None => w
      | Some w1 =>
          let w2 :=
            with_sessions
              (List.map (fun s =>
                 Session.with_messages
                   (List.map deny_message (Session.messages s)) s))
              w1 in
          with_pendingPermission None w2
      end
  end.

(** ** The page as a transition system *)

(** The world in which [App] is mounted: the session list comes from storage,
    the manager is new and no socket exists. *)
Definition init (parsed : option (list Session.t)) (clock : nat -> N)
  (random : nat -> string) : World :=
  {| sessions := loadSessions parsed;
     activeId := Session.id <$> head (loadSessions parsed);
     pendingPermission := None;
     sockets := ∅; thinkingIds := ∅; streamingIds := ∅;
     heap := []; tick := 0; Date_now := clock; Math_random := random |}.

(** What happens to the page: events of a socket delivered by the browser,
    and actions of the user on the components. *)
Inductive Event :=
| Ev_open (ws : handle)
| Ev_error (ws : handle)
| Ev_close (ws : handle)
| Ev_message (ws : handle) (data : option Message)
| Ui_newSession (config : ConnectionConfig)
| Ui_deleteSession (id : string)
| Ui_renameSession (id : string) (name : string)
| Ui_selectSession (id : string)
| Ui_connect (id : string)
| Ui_disconnect (id : string)
| Ui_sendPrompt (text : string)
| Ui_cancel
| Ui_clearMessages
| Ui_permissionAllow
| Ui_permissionDeny.

Definition session_status (id : string) (w : World) : option SessionStatus :=
  Session.status
    <$> List.find (fun s => str_eq (Session.id s) id) (sessions w).

(** One event. [None] when the event cannot happen in [w]. The browser
    delivers [open] to a connecting socket, [message] to an open or closing
    one, [error] and then [close] when a connection fails, and nothing once
    [close] is delivered; it sets [readyState] before it calls the handler
    of [open] and of [close]. The sidebar offers Reconnect for a disconnected
    or failed session and Disconnect otherwise; the chat panel sends a
    non-empty prompt for the active session when its socket is open and shows
    the permission dialog while a request is displayed. The timer that
    [handleNewSession] starts is taken to fire before the next event. *)
Definition step (e : Event) (w : World) : option World :=
  match e with
  | Ev_open ws =>
      o ← heap w !! ws;
      if (readyState o =? CONNECTING)%nat
      then Some (ws_onopen ws
                   (with_heap (fun h => alter (with_readyState OPEN) ws h) w))
      else None
  | Ev_error ws =>
      o ← heap w !! ws;
      if (readyState o =? CLOSED)%nat then None
      else Some (ws_onerror (owner o) w)
  | Ev_close ws =>
      o ← heap w !! ws;
      if (readyState o =? CLOSED)%nat then None
      else Some (ws_onclose (owner o)
                   (with_heap (fun h => alter (with_readyState CLOSED) ws h)
                      w))
  | Ev_message ws data =>
      o ← heap w !! ws;
      if (readyState o =? OPEN)%nat || (readyState o =? CLOSING)%nat
      then Some (ws_onmessage (owner o) ws data w)
      else None
  | Ui_newSession config =>
      let '(newSession, w1) := handleNewSession config w in
      Some (connect newSession w1)
  | Ui_deleteSession id => Some (handleDeleteSession id w)
  | Ui_renameSession id name => Some (handleRenameSession id name w)
  | Ui_selectSession id => Some (handleSelectSession id w)
  | Ui_connect id =>
      match session_status id w with
      | Some disconnected | Some error => Some (handleConnect id w)
      | _ => None
      end
  | Ui_disconnect id =>
      match session_status id w with
      | Some connecting | Some connected => Some (handleDisconnect id w)
      | _ => None
      end
  | Ui_sendPrompt text =>
      match activeId w with
      | Some active =>
          if truthy (Some text) && isOpen active w
          then Some (handleSendPrompt text w)
          else None
      | None => None
      end
  | Ui_cancel => Some (handleCancel w)
  | Ui_clearMessages => Some (handleClearMessages w)
  | Ui_permissionAllow =>
      match pendingPermission w with
      | Some _ => Some (handlePermissionAllow w)
      | None => None
      end
  | Ui_permissionDeny =>
      match pendingPermission w with
      | Some _ => Some (handlePermissionDeny w)
      | None => None
      end
  end.

Fixpoint run (es : list Event) (w : World) : option World :=
  match es with
  | [] => Some w
  | e :: es' => w' ← step e w; run es' w'
  end.

(** The worlds the page can be in: mounted on empty storage, after an event,
    or mounted again on the session list that [saveSessions] stored last. *)
Inductive reachable : World -> Prop :=
| reachable_start clock random :
    reachable (init None clock random)
| reachable_step e w w' :
    reachable w -> step e w = Some w' -> reachable w'
| reachable_reload w clock random :
    reachable w -> reachable (init (Some (sessions w)) clock random).

(** ** Logical states of the stream aggregator

    The aggregator keeps no state of its own beside the two maps: a session
    is idle when neither map has an entry for it, thinking when a placeholder
    is registered and no message is streaming, streaming when a streaming
    message is registered. *)

Definition Idle (localId : string) (w : World) : Prop :=
  thinkingIds w !! localId = None /\ streamingIds w !! localId = None.

Definition Thinking (localId : string) (w : World) : Prop :=
  is_Some (thinkingIds w !! localId) /\ streamingIds w !! localId = None.

Definition Streaming (localId : string) (w : World) : Prop :=
  is_Some (streamingIds w !! localId).

(** The text that the aggregator reads in an update. *)
Definition delta_of (update : SessionUpdate) : string :=
  or_default (js_or (u_delta update) (u_text update)) "".

(** An update that carries a text delta with non-empty text. *)
Definition is_text_delta (update : SessionUpdate) : bool :=
  (str_eq (u_type update) "text_delta" || str_eq (u_type update) "text")
  && truthy (Some (delta_of update)).

Definition concat_deltas (updates : list SessionUpdate) : string :=
  foldr (fun u acc => delta_of u +:+ acc) "" updates.

Definition is_placeholder (m : ChatMessage.t) : bool :=
  match ChatMessage.isThinking m with
  | Some b => b
  | None => false
  end.

(** What a delta does to one message while [k] is the streaming message. *)
Definition bump (k delta : string) (m : ChatMessage.t) : ChatMessage.t :=
  if str_eq (ChatMessage.id m) k
  then ChatMessage.with_content (ChatMessage.content m +:+ delta) m
  else m.

(** The session update of a delta while [k] is the streaming message. *)
Definition stream_into (k delta : string) (s : Session.t) : Session.t :=
  Session.with_messages (List.map (bump k delta) (Session.messages s)) s.

(** The assistant message that the first delta of a turn creates, with the
    text [c]. *)
Definition streamed_message (w : World) (c : string) : ChatMessage.t :=
  {| ChatMessage.id := fst (makeId w); ChatMessage.role := assistant;
     ChatMessage.content := c;
     ChatMessage.timestamp := Date_now w (S (tick w));
     ChatMessage.toolCall := None; ChatMessage.toolResult := None;
     ChatMessage.isThinking := None; ChatMessage.stopReason := None |}.

(** The placeholder that [thinking_start] creates. *)
Definition placeholder_message (w : World) : ChatMessage.t :=
  {| ChatMessage.id := fst (makeId w); ChatMessage.role := assistant;
     ChatMessage.content := "";
     ChatMessage.timestamp := Date_now w (S (tick w));
     ChatMessage.toolCall := None; ChatMessage.toolResult := None;
     ChatMessage.isThinking := Some true; ChatMessage.stopReason := None |}.

(** The system message that an [error] frame creates. *)
Definition error_message (w : World) (message : string) : ChatMessage.t :=
  {| ChatMessage.id := fst (makeId w); ChatMessage.role := system;
     ChatMessage.content := "Error: " +:+ message;
     ChatMessage.timestamp := Date_now w (S (tick w));
     ChatMessage.toolCall := None; ChatMessage.toolResult := None;
     ChatMessage.isThinking := None; ChatMessage.stopReason := None |}.

(** Inbound frames handed one after the other to the message handler of the
    socket [ws] of session [session_id]. *)
Definition deliver (session_id : string) (ws : handle) (msgs : list Message)
  (w : World) : World :=
  fold_left (fun w' m => ws_onmessage session_id ws (Some m) w') msgs w.

(** The tool message that [handleMessage] appends for a permission request,
    up to its id and timestamp. *)
Definition created_for (p : PermissionRequest) (m : ChatMessage.t) : Prop :=
  ChatMessage.role m = tool
  /\ ChatMessage.content m = or_default (tc_title <$> pr_toolCall p) "Tool call"
  /\ ChatMessage.toolCall m
     = Some {| title := or_default (tc_title <$> pr_toolCall p)
                          "Permission Required";
               input := pr_toolCall p ≫= tc_input |}
  /\ ChatMessage.toolResult m = Some {| tr_status := pending; output := None |}.

(** The user's answer to the permission dialog. The handlers take no request
    id: they answer the request that is displayed. *)
Definition resolve (decision : Outcome) (w : World) : World :=
  match decision with
  | allow => handlePermissionAllow w
  | deny => handlePermissionDeny w
  end.

(** What an answer does to a message. *)
Definition resolve_message (decision : Outcome) (request : PermissionRequest)
  (m : ChatMessage.t) : ChatMessage.t :=
  match decision with
  | allow => allow_message request m
  | deny => deny_message m
  end.

(** Several answers in a row. *)
Definition resolve_all (decisions : list Outcome) (w : World) : World :=
  fold_left (fun v d => resolve d v) decisions w.

Definition resolved_status (decision : Outcome) : ToolStatus :=
  match decision with
  | allow => allowed
  | deny => denied
  end.

(** [m.toolResult?.status] *)
Definition status_of (m : ChatMessage.t) : option ToolStatus :=
  tr_status <$> ChatMessage.toolResult m.

(** A socket that has left the connecting state: [ws.send] does not throw
    on it. *)
Definition settled (h : list WebSocket) (ws : handle) : Prop :=
  exists o, h !! ws = Some o /\ readyState o <> CONNECTING.

(** The displayed request, if any, came over a socket that is settled. *)
Definition displayed_settled (w : World) : Prop :=
  forall request ws,
    pendingPermission w = Some (request, ws) -> settled (heap w) ws.

(** A handler that leaves the displayed request and keeps settled sockets
    settled. *)
Definition keeps_displayed (w w' : World) : Prop :=
  pendingPermission w' = pendingPermission w
  /\ forall ws, settled (heap w) ws -> settled (heap w') ws.

(** ** A sample run *)

Definition sample_clock (n : nat) : N := (1700000000000 + N.of_nat n)%N.
Definition sample_random (n : nat) : string := "ab12c".

Definition sample_config : ConnectionConfig :=
  {| cc_wsUrl := "ws://localhost:9315/ws"; cc_token := "" |}.

Definition text_delta (s : string) : SessionUpdate :=
  {| u_type := "text_delta"; u_delta := Some s; u_text := None |}.

Definition thinking_start : SessionUpdate :=
  {| u_type := "thinking_start"; u_delta := None; u_text := None |}.

(** The id that [makeId] gives to the first session of the sample run. *)
Definition s1 : string := "loyw3v28ab12c".

(** A new session on empty storage, connected, with its remote session. *)
Definition sample_connected : World :=
  default (init None sample_clock sample_random)
    (run [Ui_newSession sample_config; Ev_open 0;
          Ev_message 0 (Some (M_status true None));
          Ev_message 0 (Some (M_session_created "abc"))]
       (init None sample_clock sample_random)).

Definition read_file : PermissionRequest :=
  {| requestId := "r1"; pr_sessionId := "abc"; options := [];
     pr_toolCall := Some {| tc_title := "Read file"; tc_description := None;
                            tc_input := None; tc_name := None |} |}.

Definition write_file : PermissionRequest :=
  {| requestId := "r2"; pr_sessionId := "abc"; options := [];
     pr_toolCall := Some {| tc_title := "Write file"; tc_description := None;
                            tc_input := None; tc_name := None |} |}.

Definition sample_session : Session.t :=
  {| Session.id := s1; Session.name := "Session 1";
     Session.wsUrl := "ws://localhost:9315/ws"; Session.token := "";
     Session.messages := []; Session.status := connected;
     Session.agentInfo := None; Session.sessionId := Some "abc";
     Session.createdAt := 1700000000001%N; Session.models := None;
     Session.cwd := None |}.

Definition sample_socket : WebSocket :=
  {| url := "ws://localhost:9315/ws"; readyState := OPEN;
     sent := [F_connect; F_new_session]; owner := s1 |}.

(** The page is reloaded while the placeholder of a turn is shown, and the
    session is connected again. *)
Definition sample_clock_later (n : nat) : N := (1700000060000 + N.of_nat n)%N.

Definition sample_thinking : World :=
  default sample_connected
    (run [Ev_message 0 (Some (M_session_update (Some [thinking_start])))]
       sample_connected).

Definition sample_reloaded : World :=
  init (Some (sessions sample_thinking)) sample_clock_later sample_random.

Definition sample_reconnected : World :=
  default sample_reloaded
    (run [Ui_connect s1; Ev_open 0;
          Ev_message 0 (Some (M_status true None));
          Ev_message 0 (Some (M_session_created "def"))]
       sample_reloaded).

(** The page is reloaded while the session is connected. *)
Definition sample_reloaded_connected : World :=
  init (Some (sessions sample_connected)) sample_clock_later sample_random.

(** The socket of the connected session reports an error. *)
Definition sample_failed : World :=
  default sample_connected (run [Ev_error 0] sample_connected).

(** A turn is streaming its first delta. *)
Definition sample_streaming : World :=
  default sample_connected
    (run [Ev_message 0 (Some (M_session_update (Some [text_delta "a"])))]
       sample_connected).

Definition read_file_message : ChatMessage.t :=
  {| ChatMessage.id := "loyw3v2aab12c"; ChatMessage.role := tool;
     ChatMessage.content := "Read file";
     ChatMessage.timestamp := 1700000000003%N;
     ChatMessage.toolCall := Some {| title := "Read file"; input := None |};
     ChatMessage.toolResult :=
       Some {| tr_status := pending; output := None |};
     ChatMessage.isThinking := None; ChatMessage.stopReason := None |}.

Definition write_file_message : ChatMessage.t :=
  {| ChatMessage.id := "loyw3v2cab12c"; ChatMessage.role := tool;
     ChatMessage.content := "Write file";
     ChatMessage.timestamp := 1700000000005%N;
     ChatMessage.toolCall := Some {| title := "Write file"; input := None |};
     ChatMessage.toolResult :=
       Some {| tr_status := pending; output := None |};
     ChatMessage.isThinking := None; ChatMessage.stopReason := None |}.

(** A second request for the same tool, under another request id. *)
Definition read_file_again : PermissionRequest :=
  {| requestId := "r3"; pr_sessionId := "abc"; options := [];
     pr_toolCall := Some {| tc_title := "Read file"; tc_description := None;
                            tc_input := None; tc_name := None |} |}.

(** One permission request is displayed. *)
Definition sample_one_request : World :=
  default sample_connected
    (run [Ev_message 0 (Some (M_permission_request read_file))]
       sample_connected).

(** Two permission requests arrive before the user answers. *)
Definition sample_two_requests : World :=
  default sample_connected
    (run [Ev_message 0 (Some (M_permission_request read_file));
          Ev_message 0 (Some (M_permission_request write_file))]
       sample_connected).

(** ** Statements of the specification that are put to the test *)

(** "After [prompt_complete] no message with [isThinking = true] remains in
    the session", for a turn of text deltas that starts idle. *)
Definition turn_leaves_no_placeholder : Prop :=
  forall (w : World) (localId : string) (ws : handle)
         (batches : list (list SessionUpdate)),
    reachable w -> Idle localId w ->
    List.concat batches <> [] ->
    Forall (fun x => is_text_delta x = true) (List.concat batches) ->
    forall s,
      In s (sessions
              (deliver localId ws
                 (List.map (fun b => M_session_update (Some b)) batches
                  ++ [M_prompt_complete]) w)) ->
      Session.id s = localId ->
      Forall (fun m => is_placeholder m = false) (Session.messages s).

(** "A [thinking_start] update received while the aggregator is already in
    the Thinking state or in the Streaming state is a no-op". *)
Definition thinking_start_noop_when_busy : Prop :=
  forall (w : World) (localId : string) (update : SessionUpdate),
    reachable w ->
    u_type update = "thinking_start" ->
    Thinking localId w \/ Streaming localId w ->
    handleUpdates localId [update] w = w.

(** "No other message's [toolResult.status] changes" when a request is
    resolved: a request arrives and is displayed, the user answers, and the
    messages that the sessions held before the request arrived keep their
    tool result. *)
Definition resolve_changes_only_its_message : Prop :=
  forall (w : World) (localId : string) (ws : handle)
         (p : PermissionRequest) (decision : Outcome) (i j : nat)
         (s s' : Session.t) (m m' : ChatMessage.t),
    reachable w ->
    sessions w !! i = Some s -> Session.messages s !! j = Some m ->
    sessions (resolve decision
                (ws_onmessage localId ws (Some (M_permission_request p)) w))
      !! i = Some s' ->
    Session.messages s' !! j = Some m' ->
    ChatMessage.toolResult m' = ChatMessage.toolResult m.

(** "In every reachable session state, [remoteSessionId] is defined only
    while the session's status equals [connected]". *)
Definition remote_id_only_while_connected : Prop :=
  forall (w : World) (s : Session.t),
    reachable w -> In s (sessions w) ->
    is_Some (Session.sessionId s) -> Session.status s = connected.

(** ** Notions used to state further properties of the code *)

(** The test at the head of [connect]: the session has a socket that is
    connecting or open. *)
Definition has_live_socket (id : string) (w : World) : bool :=
  match sockets w !! id ≫= (fun h => heap w !! h) with
  | Some o => (readyState o <=? OPEN)%nat
  | None => false
  end.

(** The address that [connect] opens. *)
Definition connect_url (session : Session.t) : string :=
  if truthy (Some (Session.token session))
  then Session.wsUrl session +:+ "?token="
       +:+ encodeURIComponent (Session.token session)
  else Session.wsUrl session.

(** The socket that [new WebSocket (url)] creates for a session. *)
Definition new_socket (session : Session.t) : WebSocket :=
  {| url := connect_url session; readyState := CONNECTING; sent := [];
     owner := Session.id session |}.

(** The user message that [handleSendPrompt] records. *)
Definition prompt_message (w : World) (text : string) : ChatMessage.t :=
  {| ChatMessage.id := fst (makeId w); ChatMessage.role := user;
     ChatMessage.content := text;
     ChatMessage.timestamp := Date_now w (S (tick w));
     ChatMessage.toolCall := None; ChatMessage.toolResult := None;
     ChatMessage.isThinking := None; ChatMessage.stopReason := None |}.


(** A socket was replaced while it was closing: the session is connected
    again over a second socket when the close event of the first arrives. *)
Definition sample_replaced : World :=
  default sample_connected
    (run [Ui_disconnect s1;
          Ev_message 0 (Some (M_status false None));
          Ui_connect s1; Ev_open 1;
          Ev_message 1 (Some (M_status true None));
          Ev_message 1 (Some (M_session_created "def"))]
       sample_connected).

(** What handling a frame of session [session_id], received over the socket
    [ws], may change: the record of that session, its own aggregator handles
    and that socket. *)
Definition confined (session_id : string) (ws : handle) (w w' : World)
  : Prop :=
  List.map Session.id (sessions w') = List.map Session.id (sessions w)
  /\ (forall i s,
        sessions w !! i = Some s -> Session.id s <> session_id ->
        sessions w' !! i = Some s)
  /\ (forall k, k <> session_id ->
                thinkingIds w' !! k = thinkingIds w !! k
                /\ streamingIds w' !! k = streamingIds w !! k)
  /\ sockets w' = sockets w
  /\ (forall h, h <> ws -> heap w' !! h = heap w !! h)
  /\ activeId w' = activeId w.

(** An update that the aggregator acts on: a text delta with non-empty text,
    or [thinking_start]. *)
Definition relevant_update (u : SessionUpdate) : bool :=
  is_text_delta u
  || (negb (str_eq (u_type u) "text_delta" || str_eq (u_type u) "text")
      && str_eq (u_type u) "thinking_start").

(** Every id registered by the aggregator is a non-empty string. *)
Definition handles_truthy (w : World) : Prop :=
  forall k v,
    thinkingIds w !! k = Some v \/ streamingIds w !! k = Some v -> v <> "".

(** Every registered socket exists and was created for the session it is
    registered under. *)
Definition registered_owned (w : World) : Prop :=
  forall id ws,
    sockets w !! id = Some ws ->
    exists o, heap w !! ws = Some o /\ owner o = id.

(** The heap has, at [ws], a socket created for the session [id]. *)
Definition owned (h : list WebSocket) (ws : handle) (id : string) : Prop :=
  exists o, h !! ws = Some o /\ owner o = id.

(** A handler that leaves the registrations and keeps every socket in place
    with its owner. *)
Definition keeps_sockets (w w' : World) : Prop :=
  sockets w' = sockets w
  /\ forall ws id, owned (heap w) ws id -> owned (heap w') ws id.

(** The value of a digit of a base-36 numeral, and of a numeral: what
    [parseInt (s, 36)] reads. *)
Definition digit36_value (c : ascii) : N :=
  let n := N_of_ascii c in
  if (n <? 58)%N then (n - 48)%N else (n - 87)%N.

Fixpoint parseInt36_aux (s : string) (acc : N) : N :=
  match s with
  | EmptyString => acc
  | String c rest => parseInt36_aux rest (acc * 36 + digit36_value c)
  end.

Definition parseInt36 (s : string) : N := parseInt36_aux s 0.

(** ** MessageBubble: inline rendering

    [renderInline] splits a text into plain parts and inline code spans with
    the global regular expression [/`([^`]+)`/g]. The text is handled here by
    what is left of it after [lastIndex]. *)

Inductive InlinePart :=
| Plain (text : string)
| InlineCode (code : string).

Definition backtick : ascii := "`"%char.

(** The longest prefix without a backtick, which is what the greedy
    [[^`]+] takes, and the rest. *)
Fixpoint span_no_backtick (s : string) : string * string :=
  match s with
  | EmptyString => (EmptyString, EmptyString)
  | String c rest =>
      if Ascii.eqb c backtick then (EmptyString, s)
      else let '(a, b) := span_no_backtick rest in (String c a, b)
  end.

(** The regular expression matched at the head of [s]: the captured group
    and what follows the match. *)
Definition match_here (s : string) : option (string * string) :=
  match s with
  | String c rest =>
      if Ascii.eqb c backtick then
        match span_no_backtick rest with
        | (String g gs, String _ after) => Some (String g gs, after)
        | _ => None
        end
      else None
  | EmptyString => None
  end.

(** [inlineCodeRegex.exec (text)] from [lastIndex] on: the text before the
    leftmost match, the captured group and what follows the match. *)
Fixpoint regex_exec (s : string) : option (string * string * string) :=
  match match_here s with
  | Some (code, after) => Some (EmptyString, code, after)
  | None =>
      match s with
      | EmptyString => None
      | String c rest =>
          match regex_exec rest with
          | Some (before, code, after) => Some (String c before, code, after)
          | None => None
          end
      end
  end.

(** The [while] loop and the final push; every turn of the loop consumes at
    least three characters, so [fuel] above the length of the text is never
    used up. *)
Fixpoint renderInline_loop (fuel : nat) (s : string) : list InlinePart :=
  match fuel with
  | O => []
  | S fuel' =>
      match regex_exec s with
      | Some (before, code, after) =>
          (if truthy (Some before) then [Plain before] else [])
            ++ InlineCode code :: renderInline_loop fuel' after
      | None => if truthy (Some s) then [Plain s] else []
      end
  end.

Definition renderInline (text : string) : list InlinePart :=
  renderInline_loop (S (String.length text)) text.

(** The text that a part was cut from, and a list of parts. *)
Definition part_source (p : InlinePart) : string :=
  match p with
  | Plain t => t
  | InlineCode c => String backtick (c +:+ String backtick EmptyString)
  end.

Definition parts_source (parts : list InlinePart) : string :=
  foldr (fun p acc => part_source p +:+ acc) EmptyString parts.

Fixpoint has_backtick (s : string) : bool :=
  match s with
  | EmptyString => false
  | String c rest => Ascii.eqb c backtick || has_backtick rest
  end.

(** A part as [renderInline] makes them: no part is empty, and a code span
    holds no backtick. *)
Definition part_well_formed (p : InlinePart) : Prop :=
  match p with
  | Plain t => t <> EmptyString
  | InlineCode c => c <> EmptyString /\ has_backtick c = false
  end.

(** * Properties *)

(** ** Auxiliary facts *)

Lemma str_eq_true (a b : string) : str_eq a b = true <-> a = b.
Proof. apply String.eqb_eq. Qed.

Lemma str_eq_false (a b : string) : str_eq a b = false <-> a <> b.
Proof. apply String.eqb_neq. Qed.

Lemma str_eq_refl (a : string) : str_eq a a = true.
Proof. apply String.eqb_refl. Qed.

Lemma lookup_map {A B : Type} (f : A -> B) (l : list A) (i : nat) :
  List.map f l !! i = f <$> (l !! i).
Proof.
  revert i. induction l as [|x l IH]; intros [|i]; simpl; auto.
Qed.

Lemma setSession_lookup (id : string) (fn : Session.t -> Session.t)
  (w : World) (i : nat) :
  sessions (setSession id fn w) !! i
  = (fun s => if str_eq (Session.id s) id then fn s else s)
      <$> (sessions w !! i).
Proof. unfold setSession. simpl. apply lookup_map. Qed.

Lemma addMessage_lookup (id : string) (msg : ChatMessage.t) (w : World)
  (i : nat) :
  sessions (addMessage id msg w) !! i
  = (fun s => if str_eq (Session.id s) id
              then Session.with_messages (Session.messages s ++ [msg]) s
              else s)
      <$> (sessions w !! i).
Proof. unfold addMessage. simpl. apply lookup_map. Qed.

Lemma ws_send_open (ws : handle) (f : Frame) (w : World) (o : WebSocket) :
  heap w !! ws = Some o -> readyState o = OPEN ->
  ws_send ws f w
  = Some (with_heap (fun h => <[ws := with_sent (sent o ++ [f]) o]> h) w).
Proof.
  intros Hh Hr. unfold ws_send, WebSocket_send. rewrite Hh, Hr. reflexivity.
Qed.

Lemma ws_send_sessions (ws : handle) (f : Frame) (w w' : World) :
  ws_send ws f w = Some w' ->
  sessions w' = sessions w /\ sockets w' = sockets w
  /\ thinkingIds w' = thinkingIds w /\ streamingIds w' = streamingIds w
  /\ pendingPermission w' = pendingPermission w /\ activeId w' = activeId w
  /\ tick w' = tick w.
Proof.
  unfold ws_send. destruct (heap w !! ws) as [o|]; [|discriminate].
  destruct (WebSocket_send f o); [|discriminate].
  intros [= <-]. repeat split.
Qed.

Example sample_connected_world :
  sessions sample_connected = [sample_session]
  /\ heap sample_connected = [sample_socket]
  /\ sockets sample_connected !! s1 = Some 0
  /\ thinkingIds sample_connected !! s1 = None
  /\ streamingIds sample_connected !! s1 = None
  /\ pendingPermission sample_connected = None.
Proof. vm_compute. repeat split. Qed.

Lemma run_reachable (es : list Event) (w w' : World) :
  reachable w -> run es w = Some w' -> reachable w'.
Proof.
  revert w. induction es as [|e es IH]; intros w Hw Hrun; simpl in Hrun.
  - injection Hrun as <-. exact Hw.
  - destruct (step e w) as [w1|] eqn:Hstep; [|discriminate].
    simpl in Hrun. eapply IH; [|exact Hrun].
    eapply reachable_step; eauto.
Qed.

Lemma run_default (es : list Event) (w d : World) :
  match run es w with Some _ => true | None => false end = true ->
  run es w = Some (default d (run es w)).
Proof. destruct (run es w); [reflexivity|discriminate]. Qed.

Example sample_connected_reachable : reachable sample_connected.
Proof.
  apply (run_reachable
           [Ui_newSession sample_config; Ev_open 0;
            Ev_message 0 (Some (M_status true None));
            Ev_message 0 (Some (M_session_created "abc"))]
           (init None sample_clock sample_random)).
  - apply reachable_start.
  - apply run_default. vm_compute. reflexivity.
Qed.

(** ** ConnectionManager *)

(** C5. [send] answers [true] exactly when the session has a socket and the
    socket is open; the frame is then appended to what that socket has handed
    to the transport and nothing else changes. When it answers [false] the
    world is the one it was called in: nothing is kept for later. *)
Theorem send_true_iff_open (localId : string) (data : Frame) (w : World) :
  (fst (send localId data w) = true
   <-> exists ws o, sockets w !! localId = Some ws
                    /\ heap w !! ws = Some o /\ readyState o = OPEN)
  /\ (forall ws o,
        sockets w !! localId = Some ws -> heap w !! ws = Some o ->
        readyState o = OPEN ->
        snd (send localId data w)
        = with_heap (fun h => <[ws := with_sent (sent o ++ [data]) o]> h) w)
  /\ (fst (send localId data w) = false -> snd (send localId data w) = w).
Proof.
  unfold send. split; [|split].
  - destruct (sockets w !! localId) as [ws|] eqn:Hs; simpl.
    + destruct (heap w !! ws) as [o|] eqn:Hh; simpl.
      * destruct (readyState o =? OPEN)%nat eqn:Hr; simpl.
        -- split; [intros _|reflexivity].
           exists ws, o. apply Nat.eqb_eq in Hr. auto.
        -- split; [discriminate|].
           intros (ws' & o' & [= <-] & Ho & Hr').
           rewrite Hh in Ho. injection Ho as <-.
           rewrite Hr' in Hr. discriminate.
      * split; [discriminate|].
        intros (ws' & o' & [= <-] & Ho & _). rewrite Hh in Ho. discriminate.
    + split; [discriminate|]. intros (ws' & o' & Habs & _). discriminate.
  - intros ws o Hs Hh Hr. rewrite Hs, Hh, Hr. simpl.
    rewrite (ws_send_open ws data w o Hh Hr). reflexivity.
  - destruct (sockets w !! localId) as [ws|]; [|reflexivity].
    destruct (heap w !! ws) as [o|]; [|reflexivity].
    destruct (readyState o =? OPEN)%nat; simpl; [discriminate|reflexivity].
Qed.

(** C6. [connect] on a session whose socket is connecting or open returns
    the world unchanged: no socket is created, the manager's map and the
    session's status stay as they are. *)
Theorem connect_live_noop (session : Session.t) (w : World) (ws : handle)
  (o : WebSocket) :
  sockets w !! Session.id session = Some ws ->
  heap w !! ws = Some o ->
  readyState o = CONNECTING \/ readyState o = OPEN ->
  connect session w = w.
Proof.
  intros Hs Hh Hr. unfold connect. rewrite Hs. simpl. rewrite Hh.
  destruct Hr as [-> | ->]; reflexivity.
Qed.

Lemma ws_onclose_sessions (session_id : string) (w : World) (i : nat)
  (s : Session.t) :
  sessions w !! i = Some s ->
  exists s', sessions (ws_onclose session_id w) !! i = Some s'
    /\ (Session.id s = session_id ->
        s' = Session.with_sessionId None (Session.with_status disconnected s))
    /\ (Session.id s <> session_id -> s' = s).
Proof.
  intros Hi. unfold ws_onclose, onSetSession.
  rewrite setSession_lookup. simpl. rewrite Hi. simpl.
  eexists. split; [reflexivity|]. split.
  - intros ->. rewrite str_eq_refl. reflexivity.
  - intros Hne. apply str_eq_false in Hne. rewrite Hne. reflexivity.
Qed.

Lemma step_close (ws : handle) (w : World) (o : WebSocket) :
  heap w !! ws = Some o -> readyState o <> CLOSED ->
  step (Ev_close ws) w
  = Some (ws_onclose (owner o)
            (with_heap (fun h => alter (with_readyState CLOSED) ws h) w)).
Proof.
  intros Hh Hr. unfold step. rewrite Hh. simpl.
  destruct (readyState o =? CLOSED)%nat eqn:E; [|reflexivity].
  apply Nat.eqb_eq in E. contradiction.
Qed.

Lemma run_cons (e : Event) (es : list Event) (w : World) :
  run (e :: es) w = step e w ≫= run es.
Proof. reflexivity. Qed.

Lemma step_error (ws : handle) (w : World) (o : WebSocket) :
  heap w !! ws = Some o -> readyState o <> CLOSED ->
  step (Ev_error ws) w = Some (ws_onerror (owner o) w).
Proof.
  intros Hh Hr. unfold step. rewrite Hh. simpl.
  destruct (readyState o =? CLOSED)%nat eqn:E; [|reflexivity].
  apply Nat.eqb_eq in E. contradiction.
Qed.

Lemma ws_onerror_sessions (session_id : string) (w : World) (i : nat)
  (s : Session.t) :
  sessions w !! i = Some s ->
  sessions (ws_onerror session_id w) !! i
  = Some (if str_eq (Session.id s) session_id
          then Session.with_status error s else s).
Proof.
  intros Hi. unfold ws_onerror, onSetSession.
  rewrite setSession_lookup, Hi. reflexivity.
Qed.

(** C7. [disconnect] on a session whose socket is connecting or open ends
    with the socket closing and the session list as it was, whether the
    [disconnect] frame went out (open socket) or [ws.send] threw (connecting
    socket). The close event that follows, alone or after an error event,
    removes the socket from the manager's map and leaves the session
    disconnected with no remote session id, its messages and every other
    session being untouched. *)
Theorem disconnect_then_close (localId : string) (w : World) (ws : handle)
  (o : WebSocket) :
  sockets w !! localId = Some ws ->
  heap w !! ws = Some o ->
  owner o = localId ->
  readyState o = CONNECTING \/ readyState o = OPEN ->
  let w1 := disconnect localId w in
  heap w1 !! ws
  = Some (with_readyState CLOSING
            (if (readyState o =? OPEN)%nat
             then with_sent (sent o ++ [F_disconnect]) o else o))
  /\ sessions w1 = sessions w
  /\ forall events,
       events = [Ev_close ws] \/ events = [Ev_error ws; Ev_close ws] ->
       exists w2,
         run events w1 = Some w2
         /\ sockets w2 !! localId = None
         /\ forall i s,
              sessions w !! i = Some s ->
              exists s', sessions w2 !! i = Some s'
                /\ (Session.id s = localId ->
                    Session.status s' = disconnected
                    /\ Session.sessionId s' = None
                    /\ Session.messages s' = Session.messages s)
                /\ (Session.id s <> localId -> s' = s).
Proof.
  intros Hs Hh Ho Hr w1.
  assert (Hlt : ws < length (heap w)) by (eapply lookup_lt_Some; eauto).
  assert (H1 : heap w1 !! ws
               = Some (with_readyState CLOSING
                         (if (readyState o =? OPEN)%nat
                          then with_sent (sent o ++ [F_disconnect]) o
                          else o))
               /\ sessions w1 = sessions w /\ sockets w1 = sockets w).
  { subst w1. unfold disconnect. rewrite Hs.
    unfold ws_send, WebSocket_send. rewrite Hh.
    destruct Hr as [Hr | Hr]; rewrite Hr; simpl.
    - unfold ws_close. simpl. rewrite list_lookup_alter_eq, Hh. simpl.
      unfold WebSocket_close. rewrite Hr. simpl. auto.
    - unfold ws_close. simpl. rewrite list_lookup_alter_eq.
      rewrite list_lookup_insert_eq by exact Hlt. simpl.
      unfold WebSocket_close. simpl. rewrite Hr. simpl. auto. }
  destruct H1 as (Hheap & Hsess & Hsock).
  split; [exact Hheap|]. split; [exact Hsess|].
  set (o1 := with_readyState CLOSING
               (if (readyState o =? OPEN)%nat
                then with_sent (sent o ++ [F_disconnect]) o else o)) in *.
  assert (Hown : owner o1 = localId).
  { subst o1. destruct (readyState o =? OPEN)%nat; simpl; exact Ho. }
  assert (Hopen : readyState o1 <> CLOSED) by (subst o1; simpl; discriminate).
  clearbody w1 o1.
  intros events [-> | ->].
  - exists (ws_onclose localId
              (with_heap (fun h => alter (with_readyState CLOSED) ws h) w1)).
    split; [|split].
    + rewrite run_cons, (step_close ws w1 o1 Hheap Hopen), Hown.
      reflexivity.
    + unfold ws_onclose, onSetSession, setSession. simpl.
      apply lookup_delete_eq.
    + intros i s Hi.
      destruct (ws_onclose_sessions localId
                  (with_heap (fun h => alter (with_readyState CLOSED) ws h)
                     w1) i s) as (s' & Hs' & Heq & Hne).
      { simpl. rewrite Hsess. exact Hi. }
      exists s'. split; [exact Hs'|]. split.
      * intros Hid. rewrite (Heq Hid). simpl. auto.
      * exact Hne.
  - exists (ws_onclose localId
              (with_heap (fun h => alter (with_readyState CLOSED) ws h)
                 (ws_onerror localId w1))).
    split; [|split].
    + rewrite run_cons, (step_error ws w1 o1 Hheap Hopen), Hown.
      change (run [Ev_close ws] (ws_onerror localId w1)
              = Some (ws_onclose localId
                        (with_heap
                           (fun h => alter (with_readyState CLOSED) ws h)
                           (ws_onerror localId w1)))).
      rewrite run_cons.
      rewrite (step_close ws (ws_onerror localId w1) o1 Hheap Hopen), Hown.
      reflexivity.
    + unfold ws_onclose, onSetSession, setSession. simpl.
      apply lookup_delete_eq.
    + intros i s Hi.
      destruct (ws_onclose_sessions localId
                  (with_heap (fun h => alter (with_readyState CLOSED) ws h)
                     (ws_onerror localId w1)) i
                  (if str_eq (Session.id s) localId
                   then Session.with_status error s else s))
        as (s' & Hs' & Heq & Hne).
      { change (sessions (ws_onerror localId w1) !! i
                = Some (if str_eq (Session.id s) localId
                        then Session.with_status error s else s)).
        apply ws_onerror_sessions. rewrite Hsess. exact Hi. }
      exists s'. split; [exact Hs'|]. split.
      * intros Hid. rewrite Hid, str_eq_refl in Heq, Hne.
        rewrite (Heq Hid). simpl. auto.
      * intros Hid. apply str_eq_false in Hid as Hf. rewrite Hf in Hne.
        apply Hne. exact Hid.
Qed.

Lemma connect_live_noop_witness : connect sample_session sample_connected = sample_connected.
Proof.
  apply (connect_live_noop sample_session sample_connected 0 sample_socket).
  - vm_compute. reflexivity.
  - vm_compute. reflexivity.
  - right. reflexivity.
Defined.

Lemma disconnect_then_close_witness :
  exists w2,
    run [Ev_close 0] (disconnect s1 sample_connected) = Some w2
    /\ sockets w2 !! s1 = None.
Proof.
  assert (Hs : sockets sample_connected !! s1 = Some 0)
    by (vm_compute; reflexivity).
  assert (Hh : heap sample_connected !! 0 = Some sample_socket)
    by (vm_compute; reflexivity).
  destruct (disconnect_then_close s1 sample_connected 0 sample_socket
              Hs Hh eq_refl (or_intror eq_refl)) as (_ & _ & H).
  destruct (H [Ev_close 0] (or_introl eq_refl)) as (w2 & Hrun & Hsock & _).
  exists w2. split; assumption.
Defined.

(** ** ProtocolDispatcher *)

(** C8. An [error] frame appends one system message, [Error: ] followed by
    the frame's message, to the list of the session it arrived for; the
    session's other fields, among them its status and remote session id, the
    messages it had and the other sessions are as before, and so are the
    sockets, the manager's maps and the displayed permission request. *)
Theorem error_frame_appends_system_message (localId : string)
  (message : string) (ws : handle) (w : World) :
  exists w',
    let m := error_message w message in
    handleMessage localId (M_error message) ws w = Normal w'
    /\ (forall i s,
          sessions w !! i = Some s ->
          exists s', sessions w' !! i = Some s'
            /\ (Session.id s = localId ->
                s' = Session.with_messages (Session.messages s ++ [m]) s
                /\ Session.status s' = Session.status s
                /\ Session.sessionId s' = Session.sessionId s)
            /\ (Session.id s <> localId -> s' = s))
    /\ length (sessions w') = length (sessions w)
    /\ heap w' = heap w /\ sockets w' = sockets w
    /\ thinkingIds w' = thinkingIds w /\ streamingIds w' = streamingIds w
    /\ pendingPermission w' = pendingPermission w
    /\ activeId w' = activeId w.
Proof.
  eexists. split; [reflexivity|].
  split.
  - intros i s Hi. unfold onAddMessage. rewrite addMessage_lookup.
    simpl. rewrite Hi. simpl. eexists. split; [reflexivity|]. split.
    + intros ->. rewrite str_eq_refl. auto.
    + intros Hne. apply str_eq_false in Hne. rewrite Hne. reflexivity.
  - simpl. rewrite length_map. repeat split.
Qed.

(** ** StreamAggregator *)

Lemma append_nil_r (s : string) : s +:+ "" = s.
Proof.
  induction s as [|c s IH]; [reflexivity|].
  change (String c (s +:+ "") = String c s). now rewrite IH.
Qed.

Lemma append_assoc (a b c : string) : (a +:+ b) +:+ c = a +:+ (b +:+ c).
Proof.
  induction a as [|x a IH]; [reflexivity|].
  change (String x ((a +:+ b) +:+ c) = String x (a +:+ (b +:+ c))).
  now rewrite IH.
Qed.

Lemma toString36_aux_nonempty (fuel : nat) (n : N) (acc : string) :
  toString36_aux fuel n acc <> "".
Proof.
  revert n acc. induction fuel as [|fuel IH]; intros n acc; simpl.
  - discriminate.
  - destruct (n / 36 =? 0)%N; [discriminate|apply IH].
Qed.

(** [makeId] never returns the empty string, so a registered id is truthy. *)
Lemma makeId_nonempty (w : World) : fst (makeId w) <> "".
Proof.
  unfold makeId, toString36. simpl.
  pose proof (toString36_aux_nonempty
                (N.to_nat (N.log2 (Date_now w (tick w))))
                (Date_now w (tick w)) "") as H.
  destruct (toString36_aux _ _ _); [contradiction|discriminate].
Qed.

Lemma truthy_Some (k : string) : k <> "" -> truthy (Some k) = true.
Proof.
  intros H. unfold truthy. apply str_eq_false in H. now rewrite H.
Qed.

Lemma Session_with_messages_same (s : Session.t) :
  Session.with_messages (Session.messages s) s = s.
Proof. destruct s; reflexivity. Qed.

Lemma with_sessions_same (w : World) (l : list Session.t) :
  l = sessions w -> with_sessions (fun _ => l) w = w.
Proof. intros ->. destruct w; reflexivity. Qed.

Lemma setSession_id (id : string) (fn : Session.t -> Session.t) (w : World) :
  (forall s, fn s = s) -> setSession id fn w = w.
Proof.
  intros H. unfold setSession.
  transitivity (with_sessions (fun _ => sessions w) w).
  - unfold with_sessions. f_equal.
    rewrite <- (map_id (sessions w)) at 2. apply map_ext.
    intros s. rewrite H. now destruct (str_eq _ _).
  - now apply with_sessions_same.
Qed.

Lemma setSession_setSession (id : string) (f g : Session.t -> Session.t)
  (w : World) :
  (forall s, Session.id (g s) = Session.id s) ->
  setSession id f (setSession id g w) = setSession id (fun s => f (g s)) w.
Proof.
  intros Hg. unfold setSession, with_sessions. simpl. f_equal.
  rewrite map_map. apply map_ext. intros s.
  destruct (str_eq (Session.id s) id) eqn:E.
  - now rewrite Hg, E.
  - now rewrite E.
Qed.

Lemma setSession_ext (id : string) (f g : Session.t -> Session.t)
  (w : World) :
  (forall s, f s = g s) -> setSession id f w = setSession id g w.
Proof.
  intros H. unfold setSession, with_sessions. f_equal. apply map_ext.
  intros s. now rewrite H.
Qed.

Lemma bump_nil (k : string) (m : ChatMessage.t) : bump k "" m = m.
Proof.
  unfold bump. destruct (str_eq _ _); [|reflexivity].
  rewrite append_nil_r. destruct m; reflexivity.
Qed.

Lemma bump_bump (k a b : string) (m : ChatMessage.t) :
  bump k b (bump k a m) = bump k (a +:+ b) m.
Proof.
  unfold bump. destruct (str_eq (ChatMessage.id m) k) eqn:E; simpl.
  - rewrite E. unfold ChatMessage.with_content. simpl.
    now rewrite append_assoc.
  - now rewrite E.
Qed.

Lemma bump_isThinking (k a : string) (m : ChatMessage.t) :
  ChatMessage.isThinking (bump k a m) = ChatMessage.isThinking m.
Proof. unfold bump. now destruct (str_eq _ _). Qed.

Lemma bump_fresh (k a : string) (l : list ChatMessage.t) :
  ~ In k (List.map ChatMessage.id l) -> List.map (bump k a) l = l.
Proof.
  induction l as [|m l IH]; simpl; intros H; [reflexivity|].
  rewrite IH by tauto. f_equal. unfold bump.
  destruct (str_eq (ChatMessage.id m) k) eqn:E; [|reflexivity].
  apply str_eq_true in E. tauto.
Qed.

Lemma is_text_delta_true (u : SessionUpdate) :
  is_text_delta u = true ->
  str_eq (u_type u) "text_delta" || str_eq (u_type u) "text" = true
  /\ truthy (Some (delta_of u)) = true.
Proof. unfold is_text_delta. intros H. now apply andb_true_iff in H. Qed.

(** A text delta while a message is streaming and no placeholder is
    registered is appended to the streaming message. *)
Lemma handleUpdate_streaming (localId k : string) (u : SessionUpdate)
  (w : World) :
  thinkingIds w !! localId = None ->
  streamingIds w !! localId = Some k -> k <> "" ->
  is_text_delta u = true ->
  handleUpdate localId w u = setSession localId (stream_into k (delta_of u)) w.
Proof.
  intros Ht Hs Hk Hu. apply is_text_delta_true in Hu as [Hty Hd].
  unfold handleUpdate. rewrite Hty. fold (delta_of u). rewrite Hd. simpl.
  rewrite Ht. simpl. rewrite Hs, (truthy_Some k Hk). reflexivity.
Qed.

Lemma handleUpdates_cons (localId : string) (u : SessionUpdate)
  (us : list SessionUpdate) (w : World) :
  handleUpdates localId (u :: us) w
  = handleUpdates localId us (handleUpdate localId w u).
Proof. reflexivity. Qed.

Lemma handleUpdates_streaming (localId k : string) (us : list SessionUpdate)
  (w : World) :
  thinkingIds w !! localId = None ->
  streamingIds w !! localId = Some k -> k <> "" ->
  Forall (fun u => is_text_delta u = true) us ->
  handleUpdates localId us w
  = setSession localId (stream_into k (concat_deltas us)) w.
Proof.
  intros Ht Hs Hk Hus. revert w Ht Hs.
  induction Hus as [|u us Hu Hus IH]; intros w Ht Hs.
  - simpl. symmetry. apply setSession_id. intros s. unfold stream_into.
    rewrite (map_ext _ (fun m => m)) by apply bump_nil.
    rewrite map_id. apply Session_with_messages_same.
  - rewrite handleUpdates_cons.
    rewrite (handleUpdate_streaming localId k u w Ht Hs Hk Hu).
    rewrite IH by assumption.
    rewrite setSession_setSession by reflexivity.
    apply setSession_ext. intros s.
    unfold stream_into, Session.with_messages. simpl.
    f_equal. rewrite map_map. apply map_ext. intros m. apply bump_bump.
Qed.

(** The first delta of a turn creates the streaming message. *)
Lemma handleUpdate_first (localId : string) (u : SessionUpdate) (w : World) :
  thinkingIds w !! localId = None ->
  streamingIds w !! localId = None ->
  is_text_delta u = true ->
  handleUpdate localId w u
  = addMessage localId (streamed_message w (delta_of u))
      (with_tick (S (S (tick w)))
         (with_streamingIds (fun m => <[localId := fst (makeId w)]> m)
            (with_tick (S (tick w)) w))).
Proof.
  intros Ht Hs Hu. apply is_text_delta_true in Hu as [Hty Hd].
  unfold handleUpdate. rewrite Hty. fold (delta_of u). rewrite Hd. simpl.
  rewrite Ht. simpl. rewrite Hs. reflexivity.
Qed.

Lemma handleUpdates_app (localId : string) (us vs : list SessionUpdate)
  (w : World) :
  handleUpdates localId (us ++ vs) w
  = handleUpdates localId vs (handleUpdates localId us w).
Proof. unfold handleUpdates. apply fold_left_app. Qed.

Lemma deliver_session_updates (localId : string) (ws : handle)
  (batches : list (list SessionUpdate)) (w : World) :
  deliver localId ws
    (List.map (fun b => M_session_update (Some b)) batches) w
  = handleUpdates localId (List.concat batches) w.
Proof.
  revert w. induction batches as [|b bs IH]; intros w; simpl; [reflexivity|].
  unfold deliver in *. simpl. rewrite IH, handleUpdates_app. reflexivity.
Qed.

Lemma deliver_app (localId : string) (ws : handle) (ms ns : list Message)
  (w : World) :
  deliver localId ws (ms ++ ns) w
  = deliver localId ws ns (deliver localId ws ms w).
Proof. unfold deliver. apply fold_left_app. Qed.

Lemma deliver_one (localId : string) (ws : handle) (m : Message) (w : World) :
  deliver localId ws [m] w = ws_onmessage localId ws (Some m) w.
Proof. reflexivity. Qed.

Lemma prompt_complete_without_placeholder (localId : string) (ws : handle)
  (w : World) :
  thinkingIds w !! localId = None ->
  ws_onmessage localId ws (Some M_prompt_complete) w
  = with_streamingIds (fun m => delete localId m) w.
Proof.
  intros H. unfold ws_onmessage, handleMessage. rewrite H. reflexivity.
Qed.

(** The world after the deltas [u :: us] of a turn that started idle. *)
Lemma handleUpdates_turn (localId : string) (u : SessionUpdate)
  (us : list SessionUpdate) (w : World) :
  Idle localId w ->
  Forall (fun x => is_text_delta x = true) (u :: us) ->
  let w' := handleUpdates localId (u :: us) w in
  thinkingIds w' = thinkingIds w
  /\ streamingIds w' = <[localId := fst (makeId w)]> (streamingIds w)
  /\ forall i s,
       sessions w !! i = Some s ->
       sessions w' !! i
       = Some (if str_eq (Session.id s) localId
               then Session.with_messages
                      (List.map (bump (fst (makeId w)) (concat_deltas us))
                         (Session.messages s)
                       ++ [streamed_message w (concat_deltas (u :: us))]) s
               else s).
Proof.
  intros [Ht Hs] Hall. inversion Hall as [|? ? Hu Hus]; subst.
  intros w'. subst w'. rewrite handleUpdates_cons.
  rewrite (handleUpdate_first localId u w Ht Hs Hu).
  rewrite (handleUpdates_streaming localId (fst (makeId w)) us).
  - split; [reflexivity|]. split; [reflexivity|].
    intros i s Hi. rewrite setSession_lookup, addMessage_lookup.
    simpl. rewrite Hi. simpl.
    destruct (str_eq (Session.id s) localId) eqn:E; simpl; rewrite E.
    + unfold stream_into, Session.with_messages. simpl.
      rewrite map_app. simpl. unfold bump at 2. simpl.
      rewrite str_eq_refl. reflexivity.
    + reflexivity.
  - simpl. exact Ht.
  - simpl. apply lookup_insert_eq.
  - apply makeId_nonempty.
  - exact Hus.
Qed.

(** C1, as the code has it. A turn that starts idle, brings at least one
    delta, each with non-empty text and in any grouping into [session_update]
    frames, and ends with [prompt_complete] leaves the aggregator idle and
    appends one assistant message to the session: it comes last, is no
    placeholder and holds the deltas concatenated in order. The messages the
    session had keep their number, their order and their [isThinking] flags,
    and are unchanged when the new id is not the id of one of them; so no
    placeholder remains if the session held none before the turn. The other
    sessions are not touched. *)
Theorem text_deltas_then_prompt_complete (localId : string) (ws : handle)
  (batches : list (list SessionUpdate)) (u : SessionUpdate)
  (us : list SessionUpdate) (w : World) :
  List.concat batches = u :: us ->
  Forall (fun x => is_text_delta x = true) (u :: us) ->
  Idle localId w ->
  let w' :=
    deliver localId ws
      (List.map (fun b => M_session_update (Some b)) batches
       ++ [M_prompt_complete]) w in
  let m := streamed_message w (concat_deltas (u :: us)) in
  Idle localId w'
  /\ forall i s,
       sessions w !! i = Some s ->
       exists s', sessions w' !! i = Some s'
         /\ (Session.id s = localId ->
             exists old : list ChatMessage.t,
               Session.messages s' = (old ++ [m])%list
               /\ length old = length (Session.messages s)
               /\ List.map ChatMessage.isThinking old
                  = List.map ChatMessage.isThinking (Session.messages s)
               /\ (~ In (ChatMessage.id m)
                       (List.map ChatMessage.id (Session.messages s)) ->
                   old = Session.messages s)
               /\ (Forall (fun x => is_placeholder x = false)
                     (Session.messages s) ->
                   Forall (fun x => is_placeholder x = false)
                     (Session.messages s'))
               /\ Session.status s' = Session.status s
               /\ Session.sessionId s' = Session.sessionId s)
         /\ (Session.id s <> localId -> s' = s).
Proof.
  intros Hcat Hall Hidle w' m.
  destruct (handleUpdates_turn localId u us w Hidle Hall) as (Ht & Hs & Hl).
  assert (Hw' : w' = with_streamingIds (fun x => delete localId x)
                       (handleUpdates localId (u :: us) w)).
  { subst w'. rewrite deliver_app, deliver_session_updates, Hcat.
    rewrite deliver_one. apply prompt_complete_without_placeholder.
    rewrite Ht. apply Hidle. }
  assert (Hth : thinkingIds w' = thinkingIds w)
    by (rewrite Hw'; exact Ht).
  assert (Hst : streamingIds w'
                = delete localId
                    (streamingIds (handleUpdates localId (u :: us) w)))
    by (rewrite Hw'; reflexivity).
  assert (Hse : sessions w' = sessions (handleUpdates localId (u :: us) w))
    by (rewrite Hw'; reflexivity).
  clearbody w'. split.
  - split.
    + rewrite Hth. apply Hidle.
    + rewrite Hst. apply lookup_delete_eq.
  - intros i s Hi. rewrite Hse, (Hl i s Hi).
    eexists. split; [reflexivity|]. split.
    + intros ->. rewrite str_eq_refl. simpl.
      exists (List.map (bump (fst (makeId w)) (concat_deltas us))
                (Session.messages s)).
      assert (Hflags :
        List.map ChatMessage.isThinking
          (List.map (bump (fst (makeId w)) (concat_deltas us))
             (Session.messages s))
        = List.map ChatMessage.isThinking (Session.messages s)).
      { rewrite map_map. apply map_ext. intros x. apply bump_isThinking. }
      split; [reflexivity|]. split; [apply length_map|].
      split; [exact Hflags|]. split; [apply bump_fresh|].
      split; [|split; reflexivity].
      intros Hno. apply Forall_app. split; [|repeat constructor].
      rewrite List.Forall_forall in *. intros x Hx.
      apply in_map_iff in Hx as (y & <- & Hy). specialize (Hno y Hy).
      unfold is_placeholder in *. now rewrite bump_isThinking.
    + intros Hne. apply str_eq_false in Hne. now rewrite Hne.
Qed.

Lemma text_deltas_then_prompt_complete_witness :
  Idle s1
    (deliver s1 0
       (List.map (fun b => M_session_update (Some b))
          [[text_delta "Hel"]; [text_delta "lo"]]
        ++ [M_prompt_complete]) sample_connected).
Proof.
  apply (text_deltas_then_prompt_complete s1 0
           [[text_delta "Hel"]; [text_delta "lo"]]
           (text_delta "Hel") [text_delta "lo"] sample_connected).
  - reflexivity.
  - repeat constructor.
  - split; vm_compute; reflexivity.
Defined.

(** The scenario of the specification: [thinking_start], two deltas and
    [prompt_complete] leave one assistant message, [Hello]. *)
Example scenario_hello :
  List.map
    (fun s => List.map (fun m => (ChatMessage.role m, ChatMessage.content m,
                                  ChatMessage.isThinking m))
                (Session.messages s))
    (sessions
       (deliver s1 0
          [M_session_update
             (Some [thinking_start; text_delta "Hel"; text_delta "lo"]);
           M_prompt_complete] sample_connected))
  = [[(assistant, "Hello", None)]].
Proof. vm_compute. reflexivity. Qed.

Example sample_reconnected_reachable : reachable sample_reconnected.
Proof.
  apply (run_reachable
           [Ui_connect s1; Ev_open 0;
            Ev_message 0 (Some (M_status true None));
            Ev_message 0 (Some (M_session_created "def"))]
           sample_reloaded);
    [|apply run_default; vm_compute; reflexivity].
  apply reachable_reload.
  apply (run_reachable
           [Ev_message 0 (Some (M_session_update (Some [thinking_start])))]
           sample_connected);
    [|apply run_default; vm_compute; reflexivity].
  apply sample_connected_reachable.
Qed.

(** C1, as the specification has it, fails. The page is reloaded while the
    placeholder of a turn is shown: the stored session list holds the
    placeholder, the new manager has no id registered for it, and the
    aggregator is idle. A turn of one delta, [Hi], then ends with the
    placeholder still in the list, before the new message. *)
Lemma stale_placeholder_survives_turn : ~ turn_leaves_no_placeholder.
Proof.
  intros H.
  specialize (H sample_reconnected s1 0 [[text_delta "Hi"]]
                sample_reconnected_reachable).
  assert (Hidle : Idle s1 sample_reconnected)
    by (split; vm_compute; reflexivity).
  specialize (H Hidle ltac:(discriminate) ltac:(repeat constructor)).
  match type of H with
  | forall s, In s ?l -> _ =>
      destruct l as [|s0 l0] eqn:El; [vm_compute in El; discriminate|]
  end.
  specialize (H s0 (or_introl eq_refl)).
  vm_compute in El. injection El as <- <-.
  specialize (H eq_refl). simpl in H.
  inversion H as [|? ? Habs _]. vm_compute in Habs. discriminate.
Qed.

Lemma thinking_start_registered (localId : string) (update : SessionUpdate)
  (w : World) :
  u_type update = "thinking_start" ->
  is_Some (thinkingIds w !! localId) ->
  handleUpdate localId w update = w.
Proof.
  intros Hty [k Hk]. unfold handleUpdate. rewrite Hty. simpl.
  unfold Map_has. rewrite Hk. reflexivity.
Qed.

Lemma thinking_start_unregistered (localId : string) (update : SessionUpdate)
  (w : World) :
  u_type update = "thinking_start" ->
  thinkingIds w !! localId = None ->
  handleUpdate localId w update
  = addMessage localId (placeholder_message w)
      (with_tick (S (S (tick w)))
         (with_thinkingIds (fun m => <[localId := fst (makeId w)]> m)
            (with_tick (S (tick w)) w))).
Proof.
  intros Hty Hk. unfold handleUpdate. rewrite Hty. simpl.
  unfold Map_has. rewrite Hk. reflexivity.
Qed.

(** C4, as the code has it. The guard of [thinking_start] is the placeholder
    map alone. With a placeholder registered for the session the update
    changes nothing. Two [thinking_start] updates in a row do what one does.
    With no placeholder registered, be the session idle or streaming, they
    register a placeholder and append it, once, to the session's messages,
    and leave the streaming map and the other sessions alone. *)
Theorem thinking_start_twice (localId : string) (update : SessionUpdate)
  (w : World) :
  u_type update = "thinking_start" ->
  (is_Some (thinkingIds w !! localId) ->
   handleUpdates localId [update] w = w)
  /\ handleUpdates localId [update; update] w
     = handleUpdates localId [update] w
  /\ (thinkingIds w !! localId = None ->
      let w' := handleUpdates localId [update; update] w in
      thinkingIds w' !! localId = Some (fst (makeId w))
      /\ streamingIds w' = streamingIds w
      /\ forall i s,
           sessions w !! i = Some s ->
           exists s', sessions w' !! i = Some s'
             /\ (Session.id s = localId ->
                 s' = Session.with_messages
                        (Session.messages s ++ [placeholder_message w]) s)
             /\ (Session.id s <> localId -> s' = s)).
Proof.
  intros Hty.
  assert (Hone : forall v, handleUpdates localId [update] v
                           = handleUpdate localId v update) by reflexivity.
  assert (Htwo : handleUpdates localId [update; update] w
                 = handleUpdates localId [update] w).
  { rewrite handleUpdates_cons, !Hone.
    apply thinking_start_registered; [exact Hty|].
    destruct (thinkingIds w !! localId) as [k|] eqn:Hk.
    - rewrite thinking_start_registered by (rewrite ?Hk; eauto).
      rewrite Hk. eauto.
    - rewrite thinking_start_unregistered by assumption. simpl.
      rewrite lookup_insert_eq. eauto. }
  split; [|split].
  - intros Hreg. rewrite Hone. now apply thinking_start_registered.
  - exact Htwo.
  - intros Hk w'. subst w'. rewrite Htwo, Hone.
    rewrite thinking_start_unregistered by assumption.
    split; [simpl; apply lookup_insert_eq|]. split; [reflexivity|].
    intros i s Hi. rewrite addMessage_lookup. simpl. rewrite Hi. simpl.
    eexists. split; [reflexivity|]. split.
    + intros ->. now rewrite str_eq_refl.
    + intros Hne. apply str_eq_false in Hne. now rewrite Hne.
Qed.

Lemma thinking_start_twice_witness :
  handleUpdates s1 [thinking_start; thinking_start] sample_connected
  = handleUpdates s1 [thinking_start] sample_connected.
Proof.
  apply (thinking_start_twice s1 thinking_start sample_connected).
  reflexivity.
Defined.

Example sample_streaming_reachable : reachable sample_streaming.
Proof.
  apply (run_reachable
           [Ev_message 0 (Some (M_session_update (Some [text_delta "a"])))]
           sample_connected).
  - apply sample_connected_reachable.
  - apply run_default. vm_compute. reflexivity.
Qed.

(** C4, as the specification has it, fails. After the first delta of a turn
    the session is streaming and no placeholder is registered: a
    [thinking_start] then appends a placeholder after the streaming message. *)
Lemma thinking_start_while_streaming : ~ thinking_start_noop_when_busy.
Proof.
  intros H.
  specialize (H sample_streaming s1 thinking_start
                sample_streaming_reachable eq_refl).
  assert (Hs : Streaming s1 sample_streaming).
  { unfold Streaming.
    destruct (streamingIds sample_streaming !! s1) as [k|] eqn:E; [eauto|].
    vm_compute in E. discriminate. }
  specialize (H (or_intror Hs)).
  apply (f_equal (fun v => List.map (fun s => length (Session.messages s))
                             (sessions v))) in H.
  vm_compute in H. discriminate.
Qed.

(** ** PermissionCoordinator *)

Lemma ws_send_connected (ws : handle) (f : Frame) (w : World)
  (o : WebSocket) :
  heap w !! ws = Some o -> readyState o <> CONNECTING ->
  ws_send ws f w
  = Some (with_heap
            (fun h => <[ws := if (readyState o =? OPEN)%nat
                              then with_sent (sent o ++ [f]) o else o]> h) w).
Proof.
  intros Hh Hr. unfold ws_send, WebSocket_send. rewrite Hh.
  destruct (readyState o =? CONNECTING)%nat eqn:E.
  - apply Nat.eqb_eq in E. contradiction.
  - destruct (readyState o =? OPEN)%nat; reflexivity.
Qed.

Lemma resolve_displayed (decision : Outcome) (w : World)
  (request : PermissionRequest) (ws : handle) (o : WebSocket) :
  pendingPermission w = Some (request, ws) ->
  heap w !! ws = Some o -> readyState o <> CONNECTING ->
  resolve decision w
  = with_pendingPermission None
      (with_sessions
         (List.map (fun s =>
            Session.with_messages
              (List.map (resolve_message decision request)
                 (Session.messages s)) s))
         (with_heap
            (fun h =>
               <[ws := if (readyState o =? OPEN)%nat
                       then with_sent
                              (sent o ++ [F_permission_response
                                            (requestId request) decision]) o
                       else o]> h) w)).
Proof.
  intros Hp Hh Hr.
  destruct decision; simpl;
    unfold handlePermissionAllow, handlePermissionDeny; rewrite Hp;
    rewrite (ws_send_connected ws _ w o Hh Hr); reflexivity.
Qed.

Lemma resolve_displayed_message (decision : Outcome) (w : World)
  (request : PermissionRequest) (ws : handle) (o : WebSocket) (i j : nat)
  (s : Session.t) (m : ChatMessage.t) :
  pendingPermission w = Some (request, ws) ->
  heap w !! ws = Some o -> readyState o <> CONNECTING ->
  sessions w !! i = Some s -> Session.messages s !! j = Some m ->
  exists s',
    sessions (resolve decision w) !! i = Some s'
    /\ Session.messages s' !! j = Some (resolve_message decision request m)
    /\ length (Session.messages s') = length (Session.messages s)
    /\ Session.id s' = Session.id s.
Proof.
  intros Hp Hh Hr Hi Hj.
  rewrite (resolve_displayed decision w request ws o Hp Hh Hr). simpl.
  rewrite lookup_map, Hi. simpl. eexists. split; [reflexivity|]. simpl.
  rewrite lookup_map, Hj, length_map. auto.
Qed.

Lemma set_toolResult_status_of (st : ToolStatus) (m : ChatMessage.t) :
  status_of (set_toolResult_status st m) = Some st.
Proof. reflexivity. Qed.

Lemma opt_str_eq_true (a b : option string) : opt_str_eq a b = true <-> a = b.
Proof.
  destruct a as [x|], b as [y|]; simpl; try (split; congruence).
  rewrite str_eq_true. split; congruence.
Qed.

(** C9. When the displayed request is denied, every message of every session
    whose tool result is pending gets the status [denied]. When it is allowed,
    every message of every session whose tool result is pending and whose
    [toolCall.title] is the title of the request gets the status [allowed]:
    the title is what is compared, the request id plays no part. Every other
    message stays as it is. *)
Theorem resolve_updates_pending_messages (w : World)
  (request : PermissionRequest) (ws : handle) (o : WebSocket) (i j : nat)
  (s : Session.t) (m : ChatMessage.t) :
  pendingPermission w = Some (request, ws) ->
  heap w !! ws = Some o -> readyState o <> CONNECTING ->
  sessions w !! i = Some s -> Session.messages s !! j = Some m ->
  (exists s' m',
     sessions (handlePermissionDeny w) !! i = Some s'
     /\ Session.messages s' !! j = Some m'
     /\ (status_of m = Some pending -> status_of m' = Some denied)
     /\ (status_of m <> Some pending -> m' = m))
  /\ (exists s' m',
        sessions (handlePermissionAllow w) !! i = Some s'
        /\ Session.messages s' !! j = Some m'
        /\ (status_of m = Some pending ->
            title <$> ChatMessage.toolCall m = tc_title <$> pr_toolCall request ->
            status_of m' = Some allowed)
        /\ (status_of m <> Some pending
            \/ title <$> ChatMessage.toolCall m
               <> tc_title <$> pr_toolCall request ->
            m' = m)).
Proof.
  intros Hp Hh Hr Hi Hj.
  assert (Hpend : is_pending m = true <-> status_of m = Some pending).
  { unfold is_pending, status_of.
    destruct (ChatMessage.toolResult m) as [[st out]|]; simpl.
    - destruct st; simpl; split; congruence.
    - split; congruence. }
  split.
  - destruct (resolve_displayed_message deny w request ws o i j s m
                Hp Hh Hr Hi Hj) as (s' & Hs' & Hm' & _).
    exists s', (deny_message m). split; [exact Hs'|].
    split; [exact Hm'|]. unfold deny_message. split.
    + intros H. apply Hpend in H. now rewrite H.
    + intros H. destruct (is_pending m) eqn:E; [|reflexivity].
      exfalso. apply H, Hpend. reflexivity.
  - destruct (resolve_displayed_message allow w request ws o i j s m
                Hp Hh Hr Hi Hj) as (s' & Hs' & Hm' & _).
    exists s', (allow_message request m). split; [exact Hs'|].
    split; [exact Hm'|]. unfold allow_message. split.
    + intros H Ht. apply Hpend in H. apply opt_str_eq_true in Ht.
      now rewrite H, Ht.
    + intros H.
      destruct (is_pending m) eqn:E; [|reflexivity]. simpl.
      destruct (opt_str_eq _ _) eqn:E2; [|reflexivity].
      exfalso. destruct H as [H|H].
      * apply H, Hpend. reflexivity.
      * apply H, opt_str_eq_true, E2.
Qed.

Example sample_two_requests_world :
  sessions sample_two_requests
  = [Session.with_messages [read_file_message; write_file_message]
       sample_session]
  /\ pendingPermission sample_two_requests = Some (write_file, 0)
  /\ heap sample_two_requests = [sample_socket].
Proof. vm_compute. repeat split. Qed.

Example sample_two_requests_reachable : reachable sample_two_requests.
Proof.
  apply (run_reachable
           [Ev_message 0 (Some (M_permission_request read_file));
            Ev_message 0 (Some (M_permission_request write_file))]
           sample_connected).
  - apply sample_connected_reachable.
  - apply run_default. vm_compute. reflexivity.
Qed.

Lemma resolve_updates_pending_messages_witness :
  exists s' m',
    sessions (handlePermissionDeny sample_two_requests) !! 0 = Some s'
    /\ Session.messages s' !! 0 = Some m'
    /\ (status_of read_file_message = Some pending ->
        status_of m' = Some denied)
    /\ (status_of read_file_message <> Some pending ->
        m' = read_file_message).
Proof.
  apply (resolve_updates_pending_messages sample_two_requests write_file 0
           sample_socket 0 0
           (Session.with_messages [read_file_message; write_file_message]
              sample_session)
           read_file_message).
  - vm_compute. reflexivity.
  - vm_compute. reflexivity.
  - discriminate.
  - vm_compute. reflexivity.
  - reflexivity.
Defined.

(** C2, as the code has it. An answer to the displayed request hands one
    [permission_response] frame, with the request's id and the answer, to the
    socket the request came from when that socket is open (a closing or
    closed socket discards it), and touches no other socket; it clears the
    displayed request; it gives the status [allowed] or [denied] to the
    message created for the request, on [allow] provided the request has a
    non-empty title. A message whose tool result is not pending is unchanged,
    and so is, on [allow], a message whose title differs from the
    request's. *)
Theorem resolve_displayed_request (decision : Outcome) (w : World)
  (request : PermissionRequest) (ws : handle) (o : WebSocket) :
  pendingPermission w = Some (request, ws) ->
  heap w !! ws = Some o -> readyState o <> CONNECTING ->
  let w' := resolve decision w in
  heap w'
  = <[ws := if (readyState o =? OPEN)%nat
            then with_sent
                   (sent o ++ [F_permission_response (requestId request)
                                 decision]) o
            else o]> (heap w)
  /\ pendingPermission w' = None
  /\ forall i j s m,
       sessions w !! i = Some s -> Session.messages s !! j = Some m ->
       exists s' m',
         sessions w' !! i = Some s'
         /\ Session.messages s' !! j = Some m'
         /\ length (Session.messages s') = length (Session.messages s)
         /\ (created_for request m ->
             decision = deny
             \/ truthy (tc_title <$> pr_toolCall request) = true ->
             status_of m' = Some (resolved_status decision))
         /\ (status_of m <> Some pending -> m' = m)
         /\ (decision = allow ->
             title <$> ChatMessage.toolCall m
             <> tc_title <$> pr_toolCall request ->
             m' = m).
Proof.
  intros Hp Hh Hr w'. subst w'. split; [|split].
  - rewrite (resolve_displayed decision w request ws o Hp Hh Hr).
    reflexivity.
  - rewrite (resolve_displayed decision w request ws o Hp Hh Hr).
    reflexivity.
  - intros i j s m Hi Hj.
    destruct (resolve_displayed_message decision w request ws o i j s m
                Hp Hh Hr Hi Hj) as (s' & Hs' & Hm' & Hlen & _).
    exists s', (resolve_message decision request m).
    split; [exact Hs'|]. split; [exact Hm'|]. split; [exact Hlen|].
    assert (Hpend : is_pending m = true <-> status_of m = Some pending).
    { unfold is_pending, status_of.
      destruct (ChatMessage.toolResult m) as [[st out]|]; simpl.
      - destruct st; simpl; split; congruence.
      - split; congruence. }
    split; [|split].
    + intros (_ & _ & Htc & Htr) Hd.
      assert (Hpd : is_pending m = true) by (unfold is_pending; now rewrite Htr).
      destruct decision; simpl.
      * destruct Hd as [Hd|Hd]; [discriminate|].
        unfold allow_message. rewrite Hpd, Htc. simpl.
        unfold or_default, js_or. rewrite Hd.
        destruct (pr_toolCall request) as [tc|]; [|discriminate].
        simpl. now rewrite str_eq_refl.
      * unfold deny_message. now rewrite Hpd.
    + intros Hnp. destruct (is_pending m) eqn:E.
      * exfalso. apply Hnp, Hpend. reflexivity.
      * destruct decision; simpl; unfold allow_message, deny_message;
          now rewrite E.
    + intros -> Hne. simpl. unfold allow_message.
      destruct (opt_str_eq _ _) eqn:E.
      * apply opt_str_eq_true in E. contradiction.
      * now rewrite andb_false_r.
Qed.

Lemma resolve_displayed_request_witness :
  pendingPermission (resolve allow sample_two_requests) = None.
Proof.
  apply (resolve_displayed_request allow sample_two_requests write_file 0
           sample_socket).
  - vm_compute. reflexivity.
  - vm_compute. reflexivity.
  - discriminate.
Defined.

(** The scenario of the specification: the request [r1] for [Read file] is
    allowed; the frame goes out and the tool message is allowed. *)
Example scenario_read_file :
  let w := resolve allow
             (deliver s1 0 [M_permission_request read_file] sample_connected) in
  List.map sent (heap w)
  = [[F_connect; F_new_session; F_permission_response "r1" allow]]
  /\ List.map (fun s => List.map status_of (Session.messages s)) (sessions w)
     = [[Some allowed]]
  /\ pendingPermission w = None.
Proof. vm_compute. repeat split. Qed.

Example sample_one_request_reachable : reachable sample_one_request.
Proof.
  apply (run_reachable
           [Ev_message 0 (Some (M_permission_request read_file))]
           sample_connected).
  - apply sample_connected_reachable.
  - apply run_default. vm_compute. reflexivity.
Qed.

(** C2, as the specification has it, fails. The request [r1] for [Read file]
    is pending when the request [r3], for [Read file] too, arrives and is
    displayed. Allowing [r3] also allows the message of [r1]: messages carry
    no request id and are matched by title. *)
Lemma allow_changes_other_messages : ~ resolve_changes_only_its_message.
Proof.
  intros H.
  specialize (H sample_one_request s1 0 read_file_again allow 0 0
                (Session.with_messages [read_file_message] sample_session)).
  match type of H with
  | forall s' m m', _ -> _ -> _ -> sessions ?w !! 0 = _ -> _ =>
      destruct (sessions w !! 0) as [s'|] eqn:Hs';
        [|vm_compute in Hs'; discriminate]
  end.
  specialize (H s' read_file_message (allow_message read_file_again
                                        read_file_message)
                sample_one_request_reachable).
  assert (Hneq : ChatMessage.toolResult
                   (allow_message read_file_again read_file_message)
                 <> ChatMessage.toolResult read_file_message)
    by (vm_compute; discriminate).
  apply Hneq, H.
  - vm_compute. reflexivity.
  - reflexivity.
  - reflexivity.
  - vm_compute in Hs'. injection Hs' as <-. reflexivity.
Qed.

(** Denying the displayed request denies every pending message: here the
    message of the request for [Read file] when the one for [Write file] is
    displayed. *)
Example deny_changes_other_messages :
  List.map (fun s => List.map status_of (Session.messages s))
    (sessions sample_two_requests)
  = [[Some pending; Some pending]]
  /\ List.map (fun s => List.map status_of (Session.messages s))
       (sessions (resolve deny sample_two_requests))
     = [[Some denied; Some denied]]
  /\ List.map sent (heap (resolve deny sample_two_requests))
     = [[F_connect; F_new_session; F_permission_response "r2" deny]].
Proof. vm_compute. repeat split. Qed.

(** On [allow], a request without a title leaves its own message pending:
    the message is created with the title [Permission Required], which the
    comparison with the request's title does not find. *)
Example allow_untitled_request :
  let untitled :=
    {| requestId := "r4"; pr_sessionId := "abc"; options := [];
       pr_toolCall := Some {| tc_title := ""; tc_description := None;
                              tc_input := None; tc_name := None |} |} in
  let w := resolve allow
             (deliver s1 0 [M_permission_request untitled] sample_connected) in
  List.map (fun s => List.map (fun m => (title <$> ChatMessage.toolCall m,
                                         status_of m))
                       (Session.messages s)) (sessions w)
  = [[(Some "Permission Required", Some pending)]]
  /\ List.map sent (heap w)
     = [[F_connect; F_new_session; F_permission_response "r4" allow]].
Proof. vm_compute. split; reflexivity. Qed.

Lemma resolve_nothing_displayed (decision : Outcome) (w : World) :
  pendingPermission w = None -> resolve decision w = w.
Proof.
  intros H. destruct decision; simpl;
    unfold handlePermissionAllow, handlePermissionDeny; now rewrite H.
Qed.

Lemma resolve_all_nothing_displayed (decisions : list Outcome) (w : World) :
  pendingPermission w = None -> resolve_all decisions w = w.
Proof.
  intros H. induction decisions as [|d ds IH]; [reflexivity|].
  unfold resolve_all in *. simpl. now rewrite resolve_nothing_displayed.
Qed.

Lemma resolve_send_throws (decision : Outcome) (w : World)
  (request : PermissionRequest) (ws : handle) :
  pendingPermission w = Some (request, ws) ->
  ws_send ws (F_permission_response (requestId request) decision) w = None ->
  resolve decision w = w.
Proof.
  intros Hp Hs. destruct decision; simpl;
    unfold handlePermissionAllow, handlePermissionDeny; now rewrite Hp, Hs.
Qed.

(** Whatever the user answers once [p] is displayed, a socket has at the end
    what it had handed to the transport plus, at most, one response to [p]. *)
Lemma resolve_all_frames (p : PermissionRequest) (ws : handle)
  (decisions : list Outcome) (w : World) (h : handle) (o' : WebSocket) :
  pendingPermission w = Some (p, ws) ->
  heap (resolve_all decisions w) !! h = Some o' ->
  exists o,
    heap w !! h = Some o
    /\ (sent o' = sent o
        \/ exists d,
             sent o'
             = (sent o ++ [F_permission_response (requestId p) d])%list).
Proof.
  intros Hp. induction decisions as [|d ds IH]; intros Hh.
  - exists o'. auto.
  - change (resolve_all (d :: ds) w) with (resolve_all ds (resolve d w)) in Hh.
    destruct (ws_send ws (F_permission_response (requestId p) d) w)
      as [w1|] eqn:Hsend.
    + unfold ws_send in Hsend.
      destruct (heap w !! ws) as [o|] eqn:Hws; [|discriminate].
      assert (Hr : readyState o <> CONNECTING).
      { intros Hc. unfold WebSocket_send in Hsend. rewrite Hc in Hsend.
        discriminate. }
      rewrite resolve_all_nothing_displayed in Hh
        by (rewrite (resolve_displayed d w p ws o Hp Hws Hr); reflexivity).
      rewrite (resolve_displayed d w p ws o Hp Hws Hr) in Hh. simpl in Hh.
      destruct (decide (ws = h)) as [->|Hne].
      * rewrite list_lookup_insert_eq in Hh by (eapply lookup_lt_Some; eauto).
        injection Hh as <-. exists o. split; [exact Hws|].
        destruct (readyState o =? OPEN)%nat; simpl; eauto.
      * rewrite list_lookup_insert_ne in Hh by exact Hne. eauto.
    + rewrite (resolve_send_throws d w p ws Hp Hsend) in Hh. now apply IH.
Qed.

(** C10. The displayed request is one optional value. A [permission_request]
    frame puts its request there in the place of whatever was displayed, hands
    nothing to any socket, and appends its own pending tool message; the
    messages the session had, that of a replaced request among them, stay.
    From then on the answers of the user go to the new request only: no
    socket ever gets a frame other than one response carrying the new
    request's id, and once that is sent nothing is displayed. *)
Theorem permission_request_replaces_displayed (localId : string)
  (p : PermissionRequest) (ws : handle) (w : World) :
  exists w',
    handleMessage localId (M_permission_request p) ws w = Normal w'
    /\ pendingPermission w' = Some (p, ws)
    /\ heap w' = heap w
    /\ (forall i s,
          sessions w !! i = Some s ->
          exists s', sessions w' !! i = Some s'
            /\ (Session.id s = localId ->
                exists m, created_for p m
                          /\ Session.messages s'
                             = (Session.messages s ++ [m])%list)
            /\ (Session.id s <> localId -> s' = s))
    /\ (forall d, pendingPermission (resolve d w') = None
                  \/ resolve d w' = w')
    /\ (forall decisions h o',
          heap (resolve_all decisions w') !! h = Some o' ->
          exists o,
            heap w !! h = Some o
            /\ (sent o' = sent o
                \/ exists d,
                     sent o'
                     = (sent o
                        ++ [F_permission_response (requestId p) d])%list)).
Proof.
  eexists. split; [reflexivity|].
  split; [reflexivity|]. split; [reflexivity|]. split; [|split].
  - intros i s Hi. unfold onAddMessage. rewrite addMessage_lookup.
    simpl. rewrite Hi. simpl. eexists. split; [reflexivity|]. split.
    + intros ->. rewrite str_eq_refl. eexists. split; [|reflexivity].
      repeat split.
    + intros Hne. apply str_eq_false in Hne. now rewrite Hne.
  - intros d.
    match goal with |- context [resolve d ?v] => set (w' := v) end.
    destruct (ws_send ws (F_permission_response (requestId p) d) w')
      as [w1|] eqn:Hsend.
    + left. destruct d; simpl;
        unfold handlePermissionAllow, handlePermissionDeny; simpl;
        rewrite Hsend; reflexivity.
    + right. now apply (resolve_send_throws d w' p ws).
  - intros decisions h o' Hh.
    apply (resolve_all_frames p ws) in Hh; [|reflexivity].
    exact Hh.
Qed.

(** ** The remote session id and the status *)

Lemma connect_sessions (session : Session.t) (w : World) (i : nat) :
  connect session w = w
  \/ sessions (connect session w) !! i
     = (fun s => if str_eq (Session.id s) (Session.id session)
                 then Session.with_status connecting s else s)
         <$> (sessions w !! i).
Proof.
  unfold connect.
  destruct (sockets w !! Session.id session ≫= _) as [o|].
  - destruct (readyState o <=? OPEN)%nat; [left; reflexivity|].
    right. simpl. apply lookup_map.
  - right. simpl. apply lookup_map.
Qed.

(** C3, as the code has it. The two transitions to [disconnected] that the
    connection drives, the close handler and a [status] frame that reports
    no connection, clear the remote session id. A [session_created] frame
    records the id it carries and leaves the status alone, whatever it is.
    The error handler and [connect] (when it opens a socket) set the status to
    [error] and to [connecting] and leave the remote session id as it was. *)
Theorem remote_id_across_transitions (session_id : string) (ws : handle)
  (w : World) (i : nat) (s : Session.t) :
  sessions w !! i = Some s ->
  Session.id s = session_id ->
  (exists s', sessions (ws_onclose session_id w) !! i = Some s'
              /\ Session.status s' = disconnected
              /\ Session.sessionId s' = None)
  /\ (forall info,
        exists s',
          sessions (ws_onmessage session_id ws
                      (Some (M_status false info)) w) !! i = Some s'
          /\ Session.status s' = disconnected
          /\ Session.sessionId s' = None)
  /\ (forall remote,
        exists s',
          sessions (ws_onmessage session_id ws
                      (Some (M_session_created remote)) w) !! i = Some s'
          /\ Session.status s' = Session.status s
          /\ Session.sessionId s' = Some remote)
  /\ (exists s', sessions (ws_onerror session_id w) !! i = Some s'
                 /\ Session.status s' = error
                 /\ Session.sessionId s' = Session.sessionId s)
  /\ (forall session,
        Session.id session = session_id ->
        connect session w = w
        \/ exists s', sessions (connect session w) !! i = Some s'
                      /\ Session.status s' = connecting
                      /\ Session.sessionId s' = Session.sessionId s).
Proof.
  intros Hi Hid.
  assert (Heq : str_eq (Session.id s) session_id = true)
    by (now apply str_eq_true).
  split; [|split; [|split; [|split]]].
  - unfold ws_onclose, onSetSession. rewrite setSession_lookup. simpl.
    rewrite Hi. simpl. rewrite Heq. eauto.
  - intros info. unfold ws_onmessage, handleMessage, onSetSession.
    rewrite setSession_lookup, Hi. simpl. rewrite Heq. eauto.
  - intros remote. unfold ws_onmessage, handleMessage, onSetSession.
    rewrite setSession_lookup, Hi. simpl. rewrite Heq. eauto.
  - unfold ws_onerror, onSetSession. rewrite setSession_lookup, Hi. simpl.
    rewrite Heq. eauto.
  - intros session Hs.
    destruct (connect_sessions session w i) as [Hc|Hc]; [now left|right].
    rewrite Hc, Hi, Hs. simpl. rewrite Heq. eauto.
Qed.

Lemma remote_id_across_transitions_witness :
  exists s', sessions (ws_onclose s1 sample_connected) !! 0 = Some s'
             /\ Session.status s' = disconnected
             /\ Session.sessionId s' = None.
Proof.
  assert (Hi : sessions sample_connected !! 0 = Some sample_session)
    by (vm_compute; reflexivity).
  exact (proj1 (remote_id_across_transitions s1 0 sample_connected 0
                  sample_session Hi eq_refl)).
Defined.

Example sample_reloaded_connected_reachable :
  reachable sample_reloaded_connected.
Proof. apply reachable_reload, sample_connected_reachable. Qed.

(** The stored list keeps the remote session id: [loadSessions] resets the
    status and nothing else, and Reconnect then sets [connecting]. *)
Example reload_keeps_remote_id :
  List.map (fun s => (Session.status s, Session.sessionId s))
    (sessions sample_reloaded_connected)
  = [(disconnected, Some "abc")]
  /\ (fun w => List.map (fun s => (Session.status s, Session.sessionId s))
                 (sessions w))
       <$> step (Ui_connect s1) sample_reloaded_connected
     = Some [(connecting, Some "abc")].
Proof. vm_compute. split; reflexivity. Qed.

Example sample_failed_reachable : reachable sample_failed.
Proof.
  apply (run_reachable [Ev_error 0] sample_connected).
  - apply sample_connected_reachable.
  - apply run_default. vm_compute. reflexivity.
Qed.

(** C3, as the specification has it, fails. The socket of a connected session
    that has its remote session id reports an error: the error handler sets
    the status to [error] and keeps the id. *)
Lemma remote_id_kept_by_error_handler : ~ remote_id_only_while_connected.
Proof.
  intros H.
  specialize (H sample_failed (Session.with_status error sample_session)
                sample_failed_reachable).
  assert (Hin : In (Session.with_status error sample_session)
                  (sessions sample_failed))
    by (vm_compute; left; reflexivity).
  specialize (H Hin ltac:(simpl; eauto)). discriminate.
Qed.

(** ** The socket of the displayed request in reachable worlds *)

Lemma keeps_displayed_refl (w : World) : keeps_displayed w w.
Proof. split; auto. Qed.

Lemma keeps_displayed_trans (w1 w2 w3 : World) :
  keeps_displayed w1 w2 -> keeps_displayed w2 w3 -> keeps_displayed w1 w3.
Proof.
  intros [Hp1 Hs1] [Hp2 Hs2]. split; [congruence|auto].
Qed.

Lemma keeps_displayed_settled (w w' : World) :
  keeps_displayed w w' -> displayed_settled w -> displayed_settled w'.
Proof.
  intros [Hp Hs] Hd request ws Hpw. rewrite Hp in Hpw. eauto.
Qed.

Lemma settled_alter (f : WebSocket -> WebSocket) (h : list WebSocket)
  (i ws : handle) :
  (forall o, readyState o <> CONNECTING -> readyState (f o) <> CONNECTING) ->
  settled h ws -> settled (alter f i h) ws.
Proof.
  intros Hf (o & Ho & Hr). unfold settled.
  rewrite list_lookup_alter. destruct (decide (i = ws)) as [->|Hne].
  - rewrite Ho. simpl. eauto.
  - eauto.
Qed.

Lemma settled_insert (h : list WebSocket) (i ws : handle) (o o' : WebSocket) :
  h !! i = Some o -> readyState o' = readyState o ->
  settled h ws -> settled (<[i := o']> h) ws.
Proof.
  intros Hi Hr' (o1 & Ho1 & Hr). unfold settled.
  destruct (decide (i = ws)) as [->|Hne].
  - rewrite list_lookup_insert_eq by (eapply lookup_lt_Some; eauto).
    exists o'. split; [reflexivity|]. rewrite Hr'. congruence.
  - rewrite list_lookup_insert_ne by exact Hne. eauto.
Qed.

Lemma settled_app (h l : list WebSocket) (ws : handle) :
  settled h ws -> settled (h ++ l) ws.
Proof.
  intros (o & Ho & Hr). exists o. split; [|exact Hr].
  now apply lookup_app_l_Some.
Qed.

Lemma ws_send_keeps (ws : handle) (f : Frame) (w w' : World) :
  ws_send ws f w = Some w' -> keeps_displayed w w'.
Proof.
  unfold ws_send. destruct (heap w !! ws) as [o|] eqn:Ho; [|discriminate].
  unfold WebSocket_send.
  destruct (readyState o =? CONNECTING)%nat; [discriminate|].
  destruct (readyState o =? OPEN)%nat; intros [= <-]; split; simpl;
    try reflexivity; intros ws'; now apply (settled_insert _ _ _ o).
Qed.

Lemma ws_send_default_keeps (ws : handle) (f : Frame) (w : World) :
  keeps_displayed w (default w (ws_send ws f w)).
Proof.
  destruct (ws_send ws f w) eqn:E; simpl.
  - eapply ws_send_keeps; eauto.
  - apply keeps_displayed_refl.
Qed.

Lemma with_sessions_keeps (f : list Session.t -> list Session.t) (w : World) :
  keeps_displayed w (with_sessions f w).
Proof. split; auto. Qed.

Lemma connect_keeps (session : Session.t) (w : World) :
  keeps_displayed w (connect session w).
Proof.
  unfold connect.
  destruct (match sockets w !! Session.id session ≫= _ with
            | Some o => _ | None => _ end).
  - apply keeps_displayed_refl.
  - split; [reflexivity|]. simpl. intros ws. apply settled_app.
Qed.

Lemma disconnect_keeps (localId : string) (w : World) :
  keeps_displayed w (disconnect localId w).
Proof.
  unfold disconnect. destruct (sockets w !! localId) as [ws|];
    [|apply keeps_displayed_refl].
  eapply keeps_displayed_trans.
  - apply (ws_send_default_keeps ws F_disconnect w).
  - unfold default.
    destruct (ws_send ws F_disconnect w) as [w1|]; split; try reflexivity;
      simpl; intros ws'; apply settled_alter; intros o Hr;
      unfold WebSocket_close;
      destruct (readyState o <=? OPEN)%nat; simpl; auto; discriminate.
Qed.

Lemma send_keeps (localId : string) (data : Frame) (w : World) :
  keeps_displayed w (snd (send localId data w)).
Proof.
  unfold send. destruct (sockets w !! localId) as [ws|];
    [|apply keeps_displayed_refl].
  destruct (heap w !! ws) as [o|]; [|apply keeps_displayed_refl].
  destruct (negb _); [apply keeps_displayed_refl|].
  apply ws_send_default_keeps.
Qed.

Lemma handleUpdate_keeps (localId : string) (w : World) (u : SessionUpdate) :
  keeps_displayed w (handleUpdate localId w u).
Proof.
  unfold handleUpdate.
  repeat match goal with
         | |- context [if ?b then _ else _] => destruct b
         end; split; auto.
Qed.

Lemma handleUpdates_keeps (localId : string) (us : list SessionUpdate)
  (w : World) :
  keeps_displayed w (handleUpdates localId us w).
Proof.
  revert w. induction us as [|u us IH]; intros w.
  - apply keeps_displayed_refl.
  - rewrite handleUpdates_cons. eapply keeps_displayed_trans; [|apply IH].
    apply handleUpdate_keeps.
Qed.

(** A frame leaves the displayed request alone, or displays a request that
    came over the socket that delivered the frame. *)
Lemma ws_onmessage_displayed (session_id : string) (ws : handle)
  (data : option Message) (w : World) :
  settled (heap w) ws -> displayed_settled w ->
  displayed_settled (ws_onmessage session_id ws data w).
Proof.
  intros Hws Hd. unfold ws_onmessage.
  destruct data as [msg|]; [|exact Hd].
  destruct msg as [c a|r|us|p| |e|t]; simpl.
  - destruct c.
    + destruct (ws_send ws F_new_session _) as [w2|] eqn:E.
      * eapply keeps_displayed_settled; [|exact Hd].
        eapply keeps_displayed_trans; [|eapply ws_send_keeps; exact E].
        split; auto.
      * eapply keeps_displayed_settled; [|exact Hd]. split; auto.
    + eapply keeps_displayed_settled; [|exact Hd]. split; auto.
  - eapply keeps_displayed_settled; [|exact Hd]. split; auto.
  - eapply keeps_displayed_settled; [|exact Hd]. apply handleUpdates_keeps.
  - intros request ws' [= <- <-]. exact Hws.
  - eapply keeps_displayed_settled; [|exact Hd].
    destruct (truthy _); split; auto.
  - eapply keeps_displayed_settled; [|exact Hd]. split; auto.
  - exact Hd.
Qed.

Lemma resolve_displayed_settled (decision : Outcome) (w : World) :
  displayed_settled w -> displayed_settled (resolve decision w).
Proof.
  intros Hd. destruct (pendingPermission w) as [[request ws]|] eqn:Hp.
  - destruct (ws_send ws (F_permission_response (requestId request) decision)
                w) as [w1|] eqn:E.
    + intros r ws' Hr. exfalso. revert Hr.
      destruct decision; simpl;
        unfold handlePermissionAllow, handlePermissionDeny;
        rewrite Hp, E; discriminate.
    + now rewrite (resolve_send_throws decision w request ws Hp E).
  - now rewrite resolve_nothing_displayed.
Qed.

Lemma step_displayed_settled (e : Event) (w w' : World) :
  step e w = Some w' -> displayed_settled w -> displayed_settled w'.
Proof.
  intros Hstep Hd. destruct e; simpl in Hstep.
  - destruct (heap w !! ws) as [o|] eqn:Ho; [|discriminate]. simpl in Hstep.
    destruct (readyState o =? CONNECTING)%nat; [|discriminate].
    injection Hstep as <-. eapply keeps_displayed_settled; [|exact Hd].
    eapply keeps_displayed_trans.
    + instantiate (1 := with_heap
                          (fun h => alter (with_readyState OPEN) ws h) w).
      split; [reflexivity|]. simpl. intros ws'. apply settled_alter.
      intros; discriminate.
    + unfold ws_onopen. apply ws_send_default_keeps.
  - destruct (heap w !! ws) as [o|]; [|discriminate]. simpl in Hstep.
    destruct (readyState o =? CLOSED)%nat; [discriminate|].
    injection Hstep as <-. eapply keeps_displayed_settled; [|exact Hd].
    split; auto.
  - destruct (heap w !! ws) as [o|]; [|discriminate]. simpl in Hstep.
    destruct (readyState o =? CLOSED)%nat; [discriminate|].
    injection Hstep as <-. eapply keeps_displayed_settled; [|exact Hd].
    split; [reflexivity|]. simpl. intros ws'. apply settled_alter.
    intros; discriminate.
  - destruct (heap w !! ws) as [o|] eqn:Ho; [|discriminate]. simpl in Hstep.
    destruct (_ || _) eqn:Hr; [|discriminate]. injection Hstep as <-.
    apply ws_onmessage_displayed; [|exact Hd].
    exists o. split; [exact Ho|]. intros Hc. rewrite Hc in Hr. discriminate.
  - unfold handleNewSession in Hstep. simpl in Hstep.
    injection Hstep as <-. eapply keeps_displayed_settled; [|exact Hd].
    eapply keeps_displayed_trans; [|apply connect_keeps]. split; auto.
  - injection Hstep as <-. eapply keeps_displayed_settled; [|exact Hd].
    unfold handleDeleteSession.
    eapply keeps_displayed_trans; [apply disconnect_keeps|].
    destruct (opt_str_eq _ _); split; auto.
  - injection Hstep as <-. eapply keeps_displayed_settled; [|exact Hd].
    split; auto.
  - injection Hstep as <-. eapply keeps_displayed_settled; [|exact Hd].
    split; auto.
  - destruct (session_status id w) as [[| | |]|]; try discriminate;
      injection Hstep as <-; (eapply keeps_displayed_settled; [|exact Hd]);
      unfold handleConnect; destruct (find _ _);
      first [apply connect_keeps | apply keeps_displayed_refl].
  - destruct (session_status id w) as [[| | |]|]; try discriminate;
      injection Hstep as <-; (eapply keeps_displayed_settled; [|exact Hd]);
      apply disconnect_keeps.
  - destruct (activeId w) as [active|] eqn:Ha; [|discriminate].
    destruct (_ && _); [|discriminate]. injection Hstep as <-.
    eapply keeps_displayed_settled; [|exact Hd].
    unfold handleSendPrompt. rewrite Ha.
    destruct (negb _); [apply keeps_displayed_refl|]. simpl.
    eapply keeps_displayed_trans; [|apply send_keeps]. split; auto.
  - injection Hstep as <-. eapply keeps_displayed_settled; [|exact Hd].
    unfold handleCancel. destruct (activeId w);
      [|apply keeps_displayed_refl].
    destruct (negb _); [apply keeps_displayed_refl|apply send_keeps].
  - injection Hstep as <-. eapply keeps_displayed_settled; [|exact Hd].
    unfold handleClearMessages. destruct (activeId w);
      [|apply keeps_displayed_refl].
    destruct (negb _); [apply keeps_displayed_refl|split; auto].
  - destruct (pendingPermission w); [|discriminate]. injection Hstep as <-.
    now apply (resolve_displayed_settled allow).
  - destruct (pendingPermission w); [|discriminate]. injection Hstep as <-.
    now apply (resolve_displayed_settled deny).
Qed.

(** In every reachable world the displayed request came over a socket that
    is open, closing or closed: the hypothesis on the socket in the two
    theorems on [resolve] is met whenever the dialog is shown. *)
Lemma reachable_displayed_settled (w : World) :
  reachable w -> displayed_settled w.
Proof.
  induction 1 as [clock random|e w w' _ IH Hstep|w clock random _ _].
  - intros request ws Hp. discriminate.
  - eapply step_displayed_settled; eauto.
  - intros request ws Hp. discriminate.
Qed.

(** * Further properties of the code *)

(** ** Storage and identifiers *)


(** X2. [makeId] never returns the empty string: an id it returns passes the
    truthiness tests that guard the aggregator's handles and the active
    session, and the draw advances the oracle by one and changes nothing
    else. *)
Theorem makeId_truthy (w : World) :
  truthy (Some (fst (makeId w))) = true
  /\ snd (makeId w) = with_tick (S (tick w)) w.
Proof.
  split; [|reflexivity]. apply truthy_Some, makeId_nonempty.
Qed.

(** ** ConnectionManager *)

Lemma with_heap_same (f : list WebSocket -> list WebSocket) (w : World) :
  f (heap w) = heap w -> with_heap f w = w.
Proof. intros H. unfold with_heap. rewrite H. destruct w; reflexivity. Qed.

Lemma has_live_socket_connect (session : Session.t) (w : World) :
  has_live_socket (Session.id session) w = true -> connect session w = w.
Proof.
  unfold has_live_socket, connect. intros H.
  destruct (sockets w !! Session.id session ≫= _) as [o|]; [|discriminate].
  now rewrite H.
Qed.

Lemma connect_not_live (session : Session.t) (w : World) :
  has_live_socket (Session.id session) w = false ->
  connect session w
  = with_sockets (fun m => <[Session.id session := length (heap w)]> m)
      (with_heap (fun h => (h ++ [new_socket session])%list)
         (onSetSession (Session.id session)
            (fun s => Session.with_status connecting s) w)).
Proof.
  intros Hlive. unfold connect. unfold has_live_socket in Hlive.
  destruct (sockets w !! Session.id session ≫= _) as [o|];
    [rewrite Hlive|]; reflexivity.
Qed.



(** X4. [isOpen] is what [send] answers: a caller that checks [isOpen]
    first, as the chat panel does, sends exactly when [send] would accept,
    and [isOpen] itself changes nothing. *)
Theorem isOpen_is_send_answer (localId : string) (data : Frame) (w : World) :
  fst (send localId data w) = isOpen localId w.
Proof.
  unfold send, isOpen. destruct (sockets w !! localId) as [ws|]; simpl;
    [|reflexivity].
  destruct (heap w !! ws) as [o|]; [|reflexivity].
  destruct (readyState o =? OPEN)%nat; reflexivity.
Qed.

(** X5. [disconnect] on a session with no registered socket does nothing,
    and a second [disconnect] in a row changes nothing any more: no second
    [disconnect] frame is sent, the socket stays as the first call left it. *)
Theorem disconnect_idempotent (localId : string) (w : World) :
  (sockets w !! localId = None -> disconnect localId w = w)
  /\ disconnect localId (disconnect localId w) = disconnect localId w.
Proof.
  split.
  { intros H. unfold disconnect. now rewrite H. }
  destruct (sockets w !! localId) as [ws|] eqn:Hs.
  2:{ unfold disconnect. now rewrite !Hs. }
  assert (Hsock : sockets (disconnect localId w) !! localId = Some ws).
  { unfold disconnect. rewrite Hs.
    destruct (ws_send ws F_disconnect w) as [w1|] eqn:E; simpl; [|exact Hs].
    apply ws_send_sessions in E as (_ & -> & _). exact Hs. }
  set (w1 := disconnect localId w) in *.
  destruct (heap w1 !! ws) as [o1|] eqn:Ho1.
  - assert (Hr : readyState o1 <> CONNECTING /\ readyState o1 <> OPEN).
    { subst w1. unfold disconnect in Ho1. rewrite Hs in Ho1.
      unfold ws_close in Ho1. simpl in Ho1.
      rewrite list_lookup_alter_eq in Ho1.
      destruct (heap _ !! ws) as [o0|]; [|discriminate].
      simpl in Ho1. injection Ho1 as <-. unfold WebSocket_close.
      destruct (readyState o0 <=? OPEN)%nat eqn:E; simpl.
      - split; discriminate.
      - apply Nat.leb_gt in E. unfold CONNECTING, OPEN in *. split; lia. }
    destruct Hr as [Hc Ho].
    unfold disconnect at 1. rewrite Hsock.
    unfold ws_send, WebSocket_send. rewrite Ho1.
    apply Nat.eqb_neq in Hc, Ho. rewrite Hc, Ho.
    unfold ws_close.
    change (with_heap
              (fun h => alter WebSocket_close ws (<[ws := o1]> h)) w1 = w1).
    apply with_heap_same.
    rewrite list_insert_id by exact Ho1.
    apply list_eq. intros j. rewrite list_lookup_alter.
    destruct (decide (ws = j)) as [<-|]; [|reflexivity].
    rewrite Ho1. simpl. f_equal. unfold WebSocket_close.
    destruct (readyState o1 <=? OPEN)%nat eqn:E; [|reflexivity].
    apply Nat.leb_le in E. apply Nat.eqb_neq in Hc, Ho.
    unfold CONNECTING, OPEN in *. lia.
  - unfold disconnect at 1. rewrite Hsock. unfold ws_send. rewrite Ho1.
    unfold ws_close. apply with_heap_same.
    apply list_eq. intros j. rewrite list_lookup_alter.
    destruct (decide (ws = j)) as [<-|]; [|reflexivity].
    now rewrite Ho1.
Qed.


Lemma step_message (ws : handle) (data : option Message) (w : World)
  (o : WebSocket) :
  heap w !! ws = Some o -> readyState o = OPEN ->
  step (Ev_message ws data) w = Some (ws_onmessage (owner o) ws data w).
Proof. intros Hh Hr. unfold step. rewrite Hh. simpl. now rewrite Hr. Qed.



(** ** Handlers of the chat panel and of the sidebar *)

Lemma send_closed (localId : string) (data : Frame) (w : World) :
  isOpen localId w = false -> snd (send localId data w) = w.
Proof.
  unfold isOpen, send. destruct (sockets w !! localId) as [ws|]; simpl;
    [|reflexivity].
  destruct (heap w !! ws) as [o|]; [|reflexivity].
  intros ->. reflexivity.
Qed.

Lemma send_open (localId : string) (data : Frame) (w : World) :
  isOpen localId w = true ->
  exists ws o,
    sockets w !! localId = Some ws /\ heap w !! ws = Some o
    /\ readyState o = OPEN
    /\ snd (send localId data w)
       = with_heap (fun h => <[ws := with_sent (sent o ++ [data]) o]> h) w.
Proof.
  unfold isOpen, send. destruct (sockets w !! localId) as [ws|]; simpl;
    [|discriminate].
  destruct (heap w !! ws) as [o|] eqn:Ho; [|discriminate].
  intros Hr. exists ws, o. rewrite Hr. simpl. apply Nat.eqb_eq in Hr.
  rewrite (ws_send_open ws data w o Ho Hr). auto.
Qed.

(** X7. [handleSendPrompt] records the user's message in the active session
    whether or not it can be sent: the message is appended last, to the
    active session only. The [prompt] frame goes to the session's socket when
    that socket is open; otherwise no socket changes and the message stays in
    the transcript all the same. *)
Theorem handleSendPrompt_records_then_sends (text active : string)
  (w : World) :
  activeId w = Some active -> active <> "" ->
  let w' := handleSendPrompt text w in
  (forall i s,
     sessions w !! i = Some s ->
     sessions w' !! i
     = Some (if str_eq (Session.id s) active
             then Session.with_messages
                    (Session.messages s ++ [prompt_message w text]) s
             else s))
  /\ (isOpen active w = false -> heap w' = heap w)
  /\ (isOpen active w = true ->
      exists ws o,
        sockets w !! active = Some ws /\ heap w !! ws = Some o
        /\ heap w' = <[ws := with_sent (sent o ++ [F_prompt text]) o]> (heap w))
  /\ sockets w' = sockets w
  /\ thinkingIds w' = thinkingIds w /\ streamingIds w' = streamingIds w.
Proof.
  intros Hact Hne w'.
  set (w3 := addMessage active (prompt_message w text)
               (with_tick (S (S (tick w))) (with_tick (S (tick w)) w))).
  assert (Hw' : w' = snd (send active (F_prompt text) w3)).
  { subst w'. unfold handleSendPrompt. rewrite Hact.
    rewrite (truthy_Some active Hne). reflexivity. }
  assert (Hopen : isOpen active w3 = isOpen active w) by reflexivity.
  assert (Hse : forall i s,
            sessions w !! i = Some s ->
            sessions w3 !! i
            = Some (if str_eq (Session.id s) active
                    then Session.with_messages
                           (Session.messages s ++ [prompt_message w text]) s
                    else s)).
  { intros i s Hi. subst w3. rewrite addMessage_lookup. simpl.
    now rewrite Hi. }
  assert (Hh3 : heap w3 = heap w) by reflexivity.
  assert (Hs3 : sockets w3 = sockets w) by reflexivity.
  assert (Ht3 : thinkingIds w3 = thinkingIds w
                /\ streamingIds w3 = streamingIds w) by (split; reflexivity).
  clearbody w3. rewrite Hw'.
  destruct (isOpen active w) eqn:Ho.
  - destruct (send_open active (F_prompt text) w3 Hopen)
      as (ws & o & Hws & Hws' & _ & ->).
    rewrite Hs3 in Hws. rewrite Hh3 in Hws'. simpl.
    split; [exact Hse|]. split; [discriminate|]. split.
    + intros _. exists ws, o. rewrite Hh3. auto.
    + rewrite Hs3. destruct Ht3. auto.
  - rewrite (send_closed active (F_prompt text) w3 Hopen).
    split; [exact Hse|]. split; [auto|]. split; [discriminate|].
    destruct Ht3. auto.
Qed.

(** X8. [handleCancel] touches neither the sessions nor the aggregator: the
    streaming message stays and goes on accumulating. It hands [cancel] to
    the active session's socket when that socket is open and does nothing at
    all otherwise, as when no session is active. *)
Theorem handleCancel_sends_only (w : World) :
  sessions (handleCancel w) = sessions w
  /\ thinkingIds (handleCancel w) = thinkingIds w
  /\ streamingIds (handleCancel w) = streamingIds w
  /\ sockets (handleCancel w) = sockets w
  /\ (activeId w = None -> handleCancel w = w)
  /\ (forall active,
        activeId w = Some active -> isOpen active w = false ->
        handleCancel w = w)
  /\ (forall active,
        activeId w = Some active -> active <> "" -> isOpen active w = true ->
        exists ws o,
          sockets w !! active = Some ws /\ heap w !! ws = Some o
          /\ heap (handleCancel w)
             = <[ws := with_sent (sent o ++ [F_cancel]) o]> (heap w)).
Proof.
  assert (Hcases : handleCancel w = w
                   \/ exists active ws o,
                        activeId w = Some active /\ isOpen active w = true
                        /\ sockets w !! active = Some ws
                        /\ heap w !! ws = Some o
                        /\ handleCancel w
                           = with_heap
                               (fun h => <[ws := with_sent
                                                   (sent o ++ [F_cancel]) o]> h)
                               w).
  { unfold handleCancel. destruct (activeId w) as [active|]; [|now left].
    destruct (negb _); [now left|].
    destruct (isOpen active w) eqn:Ho.
    - right. destruct (send_open active F_cancel w Ho)
        as (ws & o & Hws & Hws' & _ & Heq).
      exists active, ws, o. auto.
    - left. now apply send_closed. }
  split; [|split; [|split; [|split; [|split; [|split]]]]].
  - destruct Hcases as [->|(a & ws & o & _ & _ & _ & _ & ->)]; reflexivity.
  - destruct Hcases as [->|(a & ws & o & _ & _ & _ & _ & ->)]; reflexivity.
  - destruct Hcases as [->|(a & ws & o & _ & _ & _ & _ & ->)]; reflexivity.
  - destruct Hcases as [->|(a & ws & o & _ & _ & _ & _ & ->)]; reflexivity.
  - intros H. unfold handleCancel. now rewrite H.
  - intros active Ha Ho. unfold handleCancel. rewrite Ha.
    destruct (negb _); [reflexivity|]. now apply send_closed.
  - intros active Ha Hne Ho. unfold handleCancel. rewrite Ha.
    rewrite (truthy_Some active Hne). simpl.
    destruct (send_open active F_cancel w Ho)
      as (ws & o & Hws & Hws' & _ & ->).
    exists ws, o. auto.
Qed.

(** X9. [handleClearMessages] empties the message list of the active session
    and of no other, and leaves the aggregator's handles registered. When it
    is used while a message is streaming, the deltas that follow find no
    message to extend: until [prompt_complete] the session shows nothing of
    the rest of the answer. *)
Theorem clear_while_streaming_loses_deltas (active k : string)
  (us : list SessionUpdate) (w : World) :
  activeId w = Some active -> active <> "" ->
  thinkingIds w !! active = None ->
  streamingIds w !! active = Some k -> k <> "" ->
  Forall (fun u => is_text_delta u = true) us ->
  let w' := handleUpdates active us (handleClearMessages w) in
  streamingIds w' !! active = Some k
  /\ forall i s,
       sessions w !! i = Some s ->
       exists s', sessions w' !! i = Some s'
         /\ (Session.id s = active -> Session.messages s' = [])
         /\ (Session.id s <> active -> s' = s).
Proof.
  intros Ha Hne Ht Hs Hk Hus w'.
  set (w1 := handleClearMessages w) in *.
  assert (Hw1 : w1 = with_sessions
                       (List.map (fun s =>
                          if str_eq (Session.id s) active
                          then Session.with_messages [] s else s)) w).
  { subst w1. unfold handleClearMessages. rewrite Ha.
    now rewrite (truthy_Some active Hne). }
  assert (Ht1 : thinkingIds w1 !! active = None) by (rewrite Hw1; exact Ht).
  assert (Hs1 : streamingIds w1 !! active = Some k) by (rewrite Hw1; exact Hs).
  subst w'. rewrite (handleUpdates_streaming active k us w1 Ht1 Hs1 Hk Hus).
  split; [exact Hs1|].
  intros i s Hi. rewrite setSession_lookup, Hw1.
  change (sessions (with_sessions ?f w)) with (f (sessions w)).
  rewrite lookup_map, Hi.
  destruct (str_eq (Session.id s) active) eqn:E.
  - cbn [fmap option_fmap option_map]. rewrite E.
    change (Session.id (Session.with_messages [] s)) with (Session.id s).
    rewrite E. eexists. split; [reflexivity|]. split; [reflexivity|].
    intros Hid. apply str_eq_false in Hid. congruence.
  - cbn [fmap option_fmap option_map]. rewrite E, E.
    eexists. split; [reflexivity|]. split; [|reflexivity].
    intros Hid. apply str_eq_true in Hid. congruence.
Qed.

Lemma disconnect_world (localId : string) (w : World) :
  sessions (disconnect localId w) = sessions w
  /\ sockets (disconnect localId w) = sockets w
  /\ thinkingIds (disconnect localId w) = thinkingIds w
  /\ streamingIds (disconnect localId w) = streamingIds w
  /\ pendingPermission (disconnect localId w) = pendingPermission w
  /\ activeId (disconnect localId w) = activeId w
  /\ forall ws o,
       sockets w !! localId = Some ws -> heap w !! ws = Some o ->
       heap (disconnect localId w) !! ws
       = Some (WebSocket_close (default o (WebSocket_send F_disconnect o))).
Proof.
  unfold disconnect. destruct (sockets w !! localId) as [ws|] eqn:Hs.
  - unfold ws_send. destruct (heap w !! ws) as [o|] eqn:Ho.
    + destruct (WebSocket_send F_disconnect o) as [o'|] eqn:E;
        repeat split; intros ws' o'' [= <-] Ho'; unfold ws_close; simpl;
        rewrite list_lookup_alter_eq.
      * rewrite list_lookup_insert_eq by (eapply lookup_lt_Some; eauto).
        rewrite Ho in Ho'. injection Ho' as <-. now rewrite E.
      * rewrite Ho'. rewrite Ho in Ho'. injection Ho' as <-. now rewrite E.
    + repeat split. intros ws' o' [= <-] Ho'. congruence.
  - repeat split. intros; discriminate.
Qed.

Lemma setSession_absent (id : string) (fn : Session.t -> Session.t)
  (l : list Session.t) :
  Forall (fun s => Session.id s <> id) l ->
  List.map (fun s => if str_eq (Session.id s) id then fn s else s) l = l.
Proof.
  induction 1 as [|s l Hs _ IH]; simpl; [reflexivity|].
  apply str_eq_false in Hs. now rewrite Hs, IH.
Qed.

(** X10. [handleDeleteSession] removes every session that has the id and
    keeps the others in their order. If the deleted session was the active
    one, the last session that remains becomes active, or none when none
    remains; otherwise the active session stays. The session's socket, if it
    was connecting or open, is now closing, but it stays registered, and the
    aggregator's handles and the displayed request are not dropped. The close
    event of that socket then removes the registration and finds no session
    to update. *)
Theorem handleDeleteSession_removes (id : string) (w : World) :
  let w' := handleDeleteSession id w in
  sessions w'
  = List.filter (fun s => negb (str_eq (Session.id s) id)) (sessions w)
  /\ Forall (fun s => Session.id s <> id) (sessions w')
  /\ (activeId w = Some id ->
      activeId w' = Session.id <$> last (sessions w'))
  /\ (activeId w <> Some id -> activeId w' = activeId w)
  /\ sockets w' = sockets w
  /\ thinkingIds w' = thinkingIds w /\ streamingIds w' = streamingIds w
  /\ pendingPermission w' = pendingPermission w
  /\ has_live_socket id w' = false
  /\ forall ws o,
       sockets w !! id = Some ws -> heap w !! ws = Some o ->
       owner o = id -> readyState o <> CLOSED ->
       exists w2,
         step (Ev_close ws) w' = Some w2
         /\ sockets w2 !! id = None
         /\ sessions w2 = sessions w'.
Proof.
  intros w'.
  destruct (disconnect_world id w) as (Hse & Hso & Hth & Hst & Hpp & Hac & Hh).
  set (w1 := disconnect id w) in *.
  set (remaining := List.filter (fun s => negb (str_eq (Session.id s) id))
                      (sessions w1)).
  assert (Hw' : w' = with_sessions (fun _ => remaining)
                       (if opt_str_eq (activeId w) (Some id)
                        then with_activeId (Session.id <$> last remaining) w1
                        else w1)) by reflexivity.
  assert (Hrem : remaining
                 = List.filter (fun s => negb (str_eq (Session.id s) id))
                     (sessions w)) by (subst remaining; now rewrite Hse).
  assert (Hsess : sessions w' = remaining) by (rewrite Hw'; reflexivity).
  assert (Hheap : heap w' = heap w1)
    by (rewrite Hw'; destruct (opt_str_eq _ _); reflexivity).
  assert (Hsock : sockets w' = sockets w)
    by (rewrite Hw', <- Hso; destruct (opt_str_eq _ _); reflexivity).
  assert (Hno : Forall (fun s => Session.id s <> id) remaining).
  { rewrite List.Forall_forall. intros s Hs. subst remaining.
    apply filter_In in Hs as [_ Hs]. apply negb_true_iff in Hs.
    now apply str_eq_false. }
  split; [now rewrite Hsess|]. split; [now rewrite Hsess|].
  split; [|split; [|split; [|split; [|split; [|split; [|split]]]]]].
  - intros Ha. rewrite Hsess, Hw'. rewrite Ha. simpl.
    now rewrite str_eq_refl.
  - intros Ha. rewrite Hw'.
    destruct (opt_str_eq (activeId w) (Some id)) eqn:E.
    + apply opt_str_eq_true in E. contradiction.
    + simpl. exact Hac.
  - exact Hsock.
  - rewrite Hw', <- Hth. destruct (opt_str_eq _ _); reflexivity.
  - rewrite Hw', <- Hst. destruct (opt_str_eq _ _); reflexivity.
  - rewrite Hw', <- Hpp. destruct (opt_str_eq _ _); reflexivity.
  - unfold has_live_socket. rewrite Hsock, Hheap.
    destruct (sockets w !! id) as [ws|] eqn:Hws; [|reflexivity]. simpl.
    destruct (heap w1 !! ws) as [o1|] eqn:Ho1; [|reflexivity].
    assert (Hlt : ws < length (heap w)).
    { apply lookup_lt_Some in Ho1. subst w1. revert Ho1.
      unfold disconnect. rewrite Hws. unfold ws_close, ws_send. simpl.
      destruct (heap w !! ws); [destruct (WebSocket_send _ _)|]; simpl;
        rewrite ?length_alter, ?length_insert; auto. }
    destruct (lookup_lt_is_Some_2 _ _ Hlt) as [o Ho].
    rewrite (Hh ws o eq_refl Ho) in Ho1. injection Ho1 as <-.
    unfold WebSocket_close, WebSocket_send.
    destruct (readyState o =? CONNECTING)%nat eqn:Ec; simpl.
    * apply Nat.eqb_eq in Ec. rewrite Ec. reflexivity.
    * destruct (readyState o =? OPEN)%nat eqn:Eo; simpl.
      -- apply Nat.eqb_eq in Eo. rewrite Eo. reflexivity.
      -- destruct (readyState o <=? OPEN)%nat eqn:El; [reflexivity|].
         exact El.
  - intros ws o Hws Ho Hown Hr.
    assert (Ho1 := Hh ws o Hws Ho). rewrite <- Hheap in Ho1.
    set (o1 := WebSocket_close (default o (WebSocket_send F_disconnect o)))
      in *.
    assert (Hown1 : owner o1 = id).
    { subst o1. unfold WebSocket_close, WebSocket_send.
      destruct (readyState o =? CONNECTING)%nat; simpl;
        [|destruct (readyState o =? OPEN)%nat; simpl];
        match goal with
        | |- context [if ?b then _ else _] => destruct b
        end; exact Hown. }
    assert (Hr1 : readyState o1 <> CLOSED).
    { subst o1. unfold WebSocket_close, WebSocket_send.
      destruct (readyState o =? CONNECTING)%nat eqn:Ec; simpl.
      - apply Nat.eqb_eq in Ec. rewrite Ec. simpl. discriminate.
      - destruct (readyState o =? OPEN)%nat eqn:Eo; simpl.
        + apply Nat.eqb_eq in Eo. rewrite Eo. simpl. discriminate.
        + destruct (readyState o <=? OPEN)%nat; simpl;
            [discriminate|exact Hr]. }
    clearbody o1 w'.
    eexists. split; [apply (step_close ws w' o1 Ho1 Hr1)|].
    rewrite Hown1. split.
    + unfold ws_onclose, onSetSession, setSession. simpl.
      apply lookup_delete_eq.
    + unfold ws_onclose, onSetSession, setSession. simpl.
      apply setSession_absent. now rewrite Hsess.
Qed.



(** X12. The close handler removes the session's registration without
    looking at which socket is registered. When the close event of a socket
    arrives after the session was connected again over another socket, the
    open socket stays open but is registered no more: the session is set to
    [disconnected], [isOpen] answers no, [send] refuses and [disconnect] has
    nothing to close. *)
Theorem close_of_replaced_socket_unregisters (id : string) (w : World)
  (old new : handle) (o_old o_new : WebSocket) :
  sockets w !! id = Some new ->
  heap w !! new = Some o_new -> readyState o_new = OPEN ->
  heap w !! old = Some o_old -> owner o_old = id ->
  readyState o_old <> CLOSED ->
  old <> new ->
  exists w',
    step (Ev_close old) w = Some w'
    /\ heap w' !! new = Some o_new
    /\ sockets w' !! id = None
    /\ isOpen id w' = false
    /\ (forall data, send id data w' = (false, w'))
    /\ disconnect id w' = w'
    /\ forall i s,
         sessions w !! i = Some s -> Session.id s = id ->
         exists s', sessions w' !! i = Some s'
                    /\ Session.status s' = disconnected
                    /\ Session.sessionId s' = None.
Proof.
  intros Hreg Hnew Hopen Hold Hown Hr Hne.
  eexists. split; [apply (step_close old w o_old Hold Hr)|].
  rewrite Hown.
  assert (Hs : sockets
                 (ws_onclose id
                    (with_heap
                       (fun h => alter (with_readyState CLOSED) old h) w))
               !! id = None).
  { unfold ws_onclose, onSetSession, setSession. simpl.
    apply lookup_delete_eq. }
  split.
  { unfold ws_onclose, onSetSession, setSession. simpl.
    now rewrite list_lookup_alter_ne. }
  split; [exact Hs|]. split; [unfold isOpen; now rewrite Hs|].
  split; [intros data; unfold send; now rewrite Hs|].
  split; [unfold disconnect; now rewrite Hs|].
  intros i s Hi Hid.
  destruct (ws_onclose_sessions id
              (with_heap (fun h => alter (with_readyState CLOSED) old h) w)
              i s Hi) as (s' & Hs' & Heq & _).
  exists s'. split; [exact Hs'|]. rewrite (Heq Hid). auto.
Qed.

Example sample_replaced_world :
  List.map (fun s => (Session.status s, Session.sessionId s))
    (sessions sample_replaced) = [(connected, Some "def")]
  /\ List.map readyState (heap sample_replaced) = [CLOSING; OPEN]
  /\ sockets sample_replaced !! s1 = Some 1.
Proof. vm_compute. repeat split. Qed.

Lemma close_of_replaced_socket_unregisters_witness :
  exists w',
    step (Ev_close 0) sample_replaced = Some w'
    /\ sockets w' !! s1 = None /\ isOpen s1 w' = false.
Proof.
  assert (H1 : sockets sample_replaced !! s1 = Some 1)
    by (vm_compute; reflexivity).
  assert (H2 : heap sample_replaced !! 1
               = Some {| url := "ws://localhost:9315/ws"; readyState := OPEN;
                         sent := [F_connect; F_new_session]; owner := s1 |})
    by (vm_compute; reflexivity).
  assert (H3 : heap sample_replaced !! 0
               = Some {| url := "ws://localhost:9315/ws";
                         readyState := CLOSING;
                         sent := [F_connect; F_new_session; F_disconnect];
                         owner := s1 |})
    by (vm_compute; reflexivity).
  destruct (close_of_replaced_socket_unregisters s1 sample_replaced 0 1 _ _
              H1 H2 eq_refl H3 eq_refl ltac:(discriminate) ltac:(discriminate))
    as (w' & Hstep & _ & Hs & Ho & _).
  exists w'. auto.
Defined.

Example sample_replaced_reachable : reachable sample_replaced.
Proof.
  apply (run_reachable
           [Ui_disconnect s1;
            Ev_message 0 (Some (M_status false None));
            Ui_connect s1; Ev_open 1;
            Ev_message 1 (Some (M_status true None));
            Ev_message 1 (Some (M_session_created "def"))]
           sample_connected).
  - apply sample_connected_reachable.
  - apply run_default. vm_compute. reflexivity.
Qed.

(** ** Frames and sessions *)

Lemma confined_refl (session_id : string) (ws : handle) (w : World) :
  confined session_id ws w w.
Proof. repeat split; auto. Qed.

Lemma confined_trans (session_id : string) (ws : handle) (w1 w2 w3 : World) :
  confined session_id ws w1 w2 -> confined session_id ws w2 w3 ->
  confined session_id ws w1 w3.
Proof.
  intros (A1 & B1 & C1 & D1 & E1 & F1) (A2 & B2 & C2 & D2 & E2 & F2).
  repeat split; try congruence.
  - intros i s Hi Hne. apply B2; auto.
  - destruct (C1 k H), (C2 k H). congruence.
  - destruct (C1 k H), (C2 k H). congruence.
  - intros h Hh. rewrite E2, E1; auto.
Qed.

Lemma confined_setSession (session_id : string) (ws : handle)
  (fn : Session.t -> Session.t) (w : World) :
  (forall s, Session.id (fn s) = Session.id s) ->
  confined session_id ws w (setSession session_id fn w).
Proof.
  intros Hfn. repeat split; auto.
  - unfold setSession. simpl. rewrite map_map. apply map_ext.
    intros s. destruct (str_eq _ _); auto.
  - intros i s Hi Hne. rewrite setSession_lookup, Hi. simpl.
    apply str_eq_false in Hne. now rewrite Hne.
Qed.

Lemma confined_addMessage (session_id : string) (ws : handle)
  (m : ChatMessage.t) (w : World) :
  confined session_id ws w (addMessage session_id m w).
Proof.
  repeat split; auto.
  - unfold addMessage. simpl. rewrite map_map. apply map_ext.
    intros s. destruct (str_eq _ _); auto.
  - intros i s Hi Hne. rewrite addMessage_lookup, Hi. simpl.
    apply str_eq_false in Hne. now rewrite Hne.
Qed.

Lemma confined_thinkingIds (session_id : string) (ws : handle)
  (f : gmap string string -> gmap string string) (w : World) :
  (forall m k, k <> session_id -> f m !! k = m !! k) ->
  confined session_id ws w (with_thinkingIds f w).
Proof. intros Hf. repeat split; auto. simpl. now apply Hf. Qed.

Lemma confined_streamingIds (session_id : string) (ws : handle)
  (f : gmap string string -> gmap string string) (w : World) :
  (forall m k, k <> session_id -> f m !! k = m !! k) ->
  confined session_id ws w (with_streamingIds f w).
Proof. intros Hf. repeat split; auto. simpl. now apply Hf. Qed.

Lemma confined_tick (session_id : string) (ws : handle) (n : nat)
  (w : World) :
  confined session_id ws w (with_tick n w).
Proof. repeat split; auto. Qed.

Lemma confined_ws_send (session_id : string) (ws : handle) (f : Frame)
  (w w' : World) :
  ws_send ws f w = Some w' -> confined session_id ws w w'.
Proof.
  unfold ws_send. destruct (heap w !! ws) as [o|]; [|discriminate].
  destruct (WebSocket_send f o); [|discriminate]. intros [= <-].
  repeat split; auto. intros h Hh. simpl.
  now rewrite list_lookup_insert_ne.
Qed.

Ltac confined_steps :=
  repeat first
    [ apply confined_refl
    | eapply confined_trans;
      [| first [ apply confined_setSession; reflexivity
               | apply confined_addMessage
               | apply confined_thinkingIds; intros;
                 first [now apply lookup_delete_ne
                       | now apply lookup_insert_ne]
               | apply confined_streamingIds; intros;
                 first [now apply lookup_delete_ne
                       | now apply lookup_insert_ne]
               | apply confined_tick ] ] ].

Lemma confined_handleUpdate (session_id : string) (ws : handle)
  (w : World) (u : SessionUpdate) :
  confined session_id ws w (handleUpdate session_id w u).
Proof.
  unfold handleUpdate, onSetSession, onAddMessage, makeId, now.
  repeat match goal with
         | |- context [if ?b then _ else _] => destruct b
         end; cbv zeta; simpl fst; simpl snd; confined_steps.
Qed.

Lemma confined_handleUpdates (session_id : string) (ws : handle)
  (us : list SessionUpdate) (w : World) :
  confined session_id ws w (handleUpdates session_id us w).
Proof.
  revert w. induction us as [|u us IH]; intros w.
  - apply confined_refl.
  - rewrite handleUpdates_cons. eapply confined_trans; [|apply IH].
    apply confined_handleUpdate.
Qed.

(** X13. Whatever frame arrives for a session, and also when it does not
    parse, handling it adds, removes and reorders no session and changes no
    session id; the sessions with another id, the aggregator's handles of the
    other sessions, the registered sockets and the active session are as
    before, and no socket other than the one that delivered the frame is
    written to. *)
Theorem frame_is_confined_to_its_session (session_id : string) (ws : handle)
  (data : option Message) (w : World) :
  confined session_id ws w (ws_onmessage session_id ws data w).
Proof.
  unfold ws_onmessage. destruct data as [msg|]; [|apply confined_refl].
  destruct msg as [c a|r|us|p| |e|t]; simpl.
  - destruct c.
    + destruct (ws_send ws F_new_session _) as [w2|] eqn:E.
      * eapply confined_trans; [|eapply confined_ws_send; exact E].
        apply confined_setSession. reflexivity.
      * apply confined_setSession. reflexivity.
    + apply confined_setSession. reflexivity.
  - apply confined_setSession. reflexivity.
  - apply confined_handleUpdates.
  - eapply confined_trans; [|apply confined_addMessage].
    repeat split; auto.
  - destruct (truthy _).
    + unfold onSetSession. confined_steps.
    + confined_steps.
  - unfold onAddMessage. confined_steps.
  - apply confined_refl.
Qed.

(** ** A turn with a thinking phase *)

(** The first delta after [thinking_start]: the placeholder goes, the
    streaming message comes. *)
Lemma handleUpdate_first_thinking (localId p : string) (u : SessionUpdate)
  (w : World) :
  thinkingIds w !! localId = Some p -> p <> "" ->
  streamingIds w !! localId = None ->
  is_text_delta u = true ->
  handleUpdate localId w u
  = addMessage localId (streamed_message w (delta_of u))
      (with_tick (S (S (tick w)))
         (with_streamingIds (fun m => <[localId := fst (makeId w)]> m)
            (with_tick (S (tick w))
               (with_thinkingIds (fun m => delete localId m)
                  (setSession localId
                     (fun s =>
                        Session.with_messages
                          (List.filter
                             (fun m => negb (str_eq (ChatMessage.id m) p))
                             (Session.messages s)) s) w))))).
Proof.
  intros Ht Hp Hs Hu. apply is_text_delta_true in Hu as [Hty Hd].
  unfold handleUpdate. rewrite Hty. fold (delta_of u). rewrite Hd. simpl.
  rewrite Ht. rewrite (truthy_Some p Hp). simpl. rewrite Hs. reflexivity.
Qed.

Lemma bump_self (k c : string) (x : ChatMessage.t) :
  ChatMessage.id x = k ->
  bump k c x = ChatMessage.with_content (ChatMessage.content x +:+ c) x.
Proof. intros <-. unfold bump. now rewrite str_eq_refl. Qed.

Lemma filter_fresh (p : string) (l : list ChatMessage.t) :
  ~ In p (List.map ChatMessage.id l) ->
  List.filter (fun m => negb (str_eq (ChatMessage.id m) p)) l = l.
Proof.
  induction l as [|m l IH]; simpl; intros H; [reflexivity|].
  destruct (str_eq (ChatMessage.id m) p) eqn:E.
  - apply str_eq_true in E. tauto.
  - simpl. rewrite IH by tauto. reflexivity.
Qed.

(** X14. A turn that starts idle with [thinking_start], goes on with at least
    one text delta and ends with [prompt_complete], in any grouping into
    frames, leaves the aggregator idle. The placeholder is gone: of the
    messages the session had, those with the placeholder's id are removed,
    the others stay in order, and one assistant message holding the deltas in
    order comes last. When neither the placeholder's id nor the new
    message's id is the id of an old message, the list is the old one
    followed by the new message. *)
Theorem thinking_turn (localId : string) (ws : handle)
  (batches : list (list SessionUpdate)) (start u : SessionUpdate)
  (us : list SessionUpdate) (w : World) :
  List.concat batches = start :: u :: us ->
  u_type start = "thinking_start" ->
  Forall (fun x => is_text_delta x = true) (u :: us) ->
  Idle localId w ->
  let w' :=
    deliver localId ws
      (List.map (fun b => M_session_update (Some b)) batches
       ++ [M_prompt_complete]) w in
  let p := ChatMessage.id (placeholder_message w) in
  let m := streamed_message (with_tick (S (S (tick w))) w)
             (concat_deltas (u :: us)) in
  Idle localId w'
  /\ forall i s,
       sessions w !! i = Some s ->
       exists s', sessions w' !! i = Some s'
         /\ (Session.id s = localId ->
             Session.messages s'
             = (List.map (bump (ChatMessage.id m) (concat_deltas us))
                  (List.filter (fun x => negb (str_eq (ChatMessage.id x) p))
                     (Session.messages s))
                ++ [m])%list
             /\ (~ In p (List.map ChatMessage.id (Session.messages s)) ->
                 ~ In (ChatMessage.id m)
                     (List.map ChatMessage.id (Session.messages s)) ->
                 Session.messages s' = (Session.messages s ++ [m])%list))
         /\ (Session.id s <> localId -> s' = s).
Proof.
  intros Hcat Hty Hall [Ht Hs] w' p m.
  inversion Hall as [|? ? Hu Hus]; subst.
  set (w1 := handleUpdate localId w start).
  assert (Hw1 := thinking_start_unregistered localId start w Hty Ht).
  fold w1 in Hw1.
  assert (Ht1 : thinkingIds w1 !! localId = Some p).
  { rewrite Hw1. simpl. apply lookup_insert_eq. }
  assert (Hs1 : streamingIds w1 !! localId = None) by (rewrite Hw1; exact Hs).
  assert (Hp : p <> "") by apply makeId_nonempty.
  set (w2 := handleUpdate localId w1 u).
  assert (Hw2 := handleUpdate_first_thinking localId p u w1 Ht1 Hp Hs1 Hu).
  fold w2 in Hw2.
  assert (Hm1 : forall c, streamed_message w1 c
                          = streamed_message (with_tick (S (S (tick w))) w) c)
    by (intros c; rewrite Hw1; reflexivity).
  assert (Hkm : fst (makeId w1) = ChatMessage.id m)
    by (rewrite Hw1; reflexivity).
  set (k := fst (makeId w1)) in *.
  assert (Ht2 : thinkingIds w2 !! localId = None).
  { rewrite Hw2. simpl. apply lookup_delete_eq. }
  assert (Hs2 : streamingIds w2 !! localId = Some k).
  { rewrite Hw2. simpl. apply lookup_insert_eq. }
  assert (Hk : k <> "") by apply makeId_nonempty.
  set (w3 := handleUpdates localId us w2).
  assert (Hw3 := handleUpdates_streaming localId k us w2 Ht2 Hs2 Hk Hus).
  fold w3 in Hw3.
  assert (Hw' : w' = with_streamingIds (fun x => delete localId x) w3).
  { subst w'. rewrite deliver_app, deliver_session_updates, Hcat.
    rewrite deliver_one.
    change (handleUpdates localId (start :: u :: us) w) with w3.
    apply prompt_complete_without_placeholder.
    rewrite Hw3. exact Ht2. }
  assert (Hse : forall i s,
            sessions w !! i = Some s ->
            sessions w' !! i
            = Some (if str_eq (Session.id s) localId
                    then Session.with_messages
                           (List.map (bump k (concat_deltas us))
                              (List.filter
                                 (fun x => negb (str_eq (ChatMessage.id x) p))
                                 (Session.messages s))
                            ++ [m]) s
                    else s)).
  { intros i s Hi. rewrite Hw'.
    change (sessions (with_streamingIds ?f w3)) with (sessions w3).
    rewrite Hw3, setSession_lookup, Hw2, addMessage_lookup.
    change (sessions (with_tick ?a (with_streamingIds ?b (with_tick ?c
              (with_thinkingIds ?d ?x))))) with (sessions x).
    rewrite setSession_lookup, Hw1, addMessage_lookup.
    change (sessions (with_tick ?a (with_thinkingIds ?b (with_tick ?c w))))
      with (sessions w).
    rewrite Hi. cbn [fmap option_fmap option_map].
    destruct (str_eq (Session.id s) localId) eqn:E.
    - cbn [Session.id Session.with_messages]. rewrite E.
      cbn [Session.id Session.with_messages]. rewrite E.
      cbn [Session.id Session.with_messages]. rewrite E.
      unfold stream_into. cbn [Session.messages Session.with_messages].
      f_equal. unfold Session.with_messages. cbn [Session.id Session.name
        Session.wsUrl Session.token Session.status Session.agentInfo
        Session.sessionId Session.createdAt Session.models Session.cwd].
      f_equal.
      assert (Hph : List.filter
                      (fun x => negb (str_eq (ChatMessage.id x) p))
                      [placeholder_message w] = []).
      { simpl. subst p. now rewrite str_eq_refl. }
      rewrite List.filter_app, Hph, app_nil_r, map_app. f_equal.
      cbn [List.map]. f_equal. rewrite Hkm.
      rewrite bump_self by reflexivity. reflexivity.
    - rewrite E, E, E. reflexivity. }
  assert (Hth' : thinkingIds w' !! localId = None).
  { rewrite Hw'. change (thinkingIds w3 !! localId = None).
    rewrite Hw3. exact Ht2. }
  assert (Hst' : streamingIds w' !! localId = None).
  { rewrite Hw'. simpl. apply lookup_delete_eq. }
  clearbody w' w3 w2 w1.
  split; [split; assumption|].
  intros i s Hi. rewrite (Hse i s Hi), Hkm.
  eexists. split; [reflexivity|]. split.
  - intros ->. rewrite str_eq_refl.
    cbn [Session.messages Session.with_messages].
    split; [reflexivity|]. intros Hfp Hfk.
    rewrite (filter_fresh p _ Hfp), (bump_fresh _ _ _ Hfk). reflexivity.
  - intros Hne. apply str_eq_false in Hne. now rewrite Hne.
Qed.

(** ** Updates that the aggregator ignores *)

Lemma handleUpdate_irrelevant (localId : string) (u : SessionUpdate)
  (w : World) :
  relevant_update u = false -> handleUpdate localId w u = w.
Proof.
  unfold relevant_update, is_text_delta, handleUpdate. fold (delta_of u).
  destruct (str_eq (u_type u) "text_delta" || str_eq (u_type u) "text");
    simpl.
  - rewrite orb_false_r. intros ->. reflexivity.
  - intros ->. reflexivity.
Qed.

(** X15. An update whose type is neither [text_delta], [text] nor
    [thinking_start], and a text update whose text is empty or missing,
    change nothing; a batch does what it does without them. *)
Theorem handleUpdates_ignores_irrelevant (localId : string)
  (us : list SessionUpdate) (w : World) :
  handleUpdates localId us w
  = handleUpdates localId (List.filter relevant_update us) w.
Proof.
  revert w. induction us as [|u us IH]; intros w; [reflexivity|].
  rewrite handleUpdates_cons. simpl.
  destruct (relevant_update u) eqn:E.
  - rewrite handleUpdates_cons. apply IH.
  - rewrite (handleUpdate_irrelevant localId u w E). apply IH.
Qed.

(** ** The aggregator's handles in reachable worlds *)

Lemma handles_truthy_insert_thinking (k v : string) (w : World) :
  v <> "" -> handles_truthy w ->
  handles_truthy (with_thinkingIds (fun m => <[k := v]> m) w).
Proof.
  intros Hv H k' v' [Hk|Hk]; simpl in Hk.
  - destruct (decide (k = k')) as [<-|Hne].
    + rewrite lookup_insert_eq in Hk. congruence.
    + rewrite lookup_insert_ne in Hk by exact Hne. eapply H; eauto.
  - eapply H; eauto.
Qed.

Lemma handles_truthy_insert_streaming (k v : string) (w : World) :
  v <> "" -> handles_truthy w ->
  handles_truthy (with_streamingIds (fun m => <[k := v]> m) w).
Proof.
  intros Hv H k' v' [Hk|Hk]; simpl in Hk.
  - eapply H; eauto.
  - destruct (decide (k = k')) as [<-|Hne].
    + rewrite lookup_insert_eq in Hk. congruence.
    + rewrite lookup_insert_ne in Hk by exact Hne. eapply H; eauto.
Qed.

Lemma handles_truthy_delete_thinking (k : string) (w : World) :
  handles_truthy w ->
  handles_truthy (with_thinkingIds (fun m => delete k m) w).
Proof.
  intros H k' v' [Hk|Hk]; simpl in Hk.
  - apply lookup_delete_Some in Hk as [_ Hk]. eapply H; eauto.
  - eapply H; eauto.
Qed.

Lemma handles_truthy_delete_streaming (k : string) (w : World) :
  handles_truthy w ->
  handles_truthy (with_streamingIds (fun m => delete k m) w).
Proof.
  intros H k' v' [Hk|Hk]; simpl in Hk.
  - eapply H; eauto.
  - apply lookup_delete_Some in Hk as [_ Hk]. eapply H; eauto.
Qed.

Lemma handles_truthy_same (w w' : World) :
  thinkingIds w' = thinkingIds w -> streamingIds w' = streamingIds w ->
  handles_truthy w -> handles_truthy w'.
Proof. intros Ht Hs H k v. rewrite Ht, Hs. apply H. Qed.

Lemma handles_truthy_handleUpdate (localId : string) (w : World)
  (u : SessionUpdate) :
  handles_truthy w -> handles_truthy (handleUpdate localId w u).
Proof.
  intros H. unfold handleUpdate, onSetSession, onAddMessage.
  repeat match goal with
         | |- context [if ?b then _ else _] => destruct b
         end; try exact H;
  first
    [ eapply handles_truthy_same; [reflexivity|reflexivity|exact H]
    | eapply (handles_truthy_same
                (with_thinkingIds (fun m => delete localId m) w));
      [reflexivity|reflexivity|];
      now apply handles_truthy_delete_thinking
    | eapply (handles_truthy_same
                (with_streamingIds
                   (fun m => <[localId := fst (makeId w)]> m)
                   (with_thinkingIds (fun m => delete localId m) w)));
      [reflexivity|reflexivity|];
      apply handles_truthy_insert_streaming; [apply makeId_nonempty|];
      now apply handles_truthy_delete_thinking
    | eapply (handles_truthy_same
                (with_streamingIds
                   (fun m => <[localId := fst (makeId w)]> m) w));
      [reflexivity|reflexivity|];
      apply handles_truthy_insert_streaming;
      [apply makeId_nonempty|exact H]
    | eapply (handles_truthy_same
                (with_thinkingIds
                   (fun m => <[localId := fst (makeId w)]> m) w));
      [reflexivity|reflexivity|];
      apply handles_truthy_insert_thinking;
      [apply makeId_nonempty|exact H] ].
Qed.

Lemma handles_truthy_handleUpdates (localId : string)
  (us : list SessionUpdate) (w : World) :
  handles_truthy w -> handles_truthy (handleUpdates localId us w).
Proof.
  revert w. induction us as [|u us IH]; intros w H; [exact H|].
  rewrite handleUpdates_cons. apply IH. now apply handles_truthy_handleUpdate.
Qed.

Lemma handles_truthy_ws_onmessage (session_id : string) (ws : handle)
  (data : option Message) (w : World) :
  handles_truthy w -> handles_truthy (ws_onmessage session_id ws data w).
Proof.
  intros H. unfold ws_onmessage. destruct data as [msg|]; [|exact H].
  destruct msg as [c a|r|us|p| |e|t]; simpl; try exact H.
  - destruct c; [|exact H].
    destruct (ws_send ws F_new_session _) as [w2|] eqn:E; [|exact H].
    apply ws_send_sessions in E as (_ & _ & Ht & Hs & _).
    eapply handles_truthy_same; [exact Ht|exact Hs|exact H].
  - now apply handles_truthy_handleUpdates.
  - apply handles_truthy_delete_streaming.
    destruct (truthy _); [|exact H].
    apply handles_truthy_delete_thinking.
    eapply handles_truthy_same; [| |exact H]; reflexivity.
Qed.

Lemma connect_handles (session : Session.t) (w : World) :
  thinkingIds (connect session w) = thinkingIds w
  /\ streamingIds (connect session w) = streamingIds w.
Proof.
  unfold connect.
  destruct (match sockets w !! Session.id session ≫= _ with
            | Some o => _ | None => _ end); split; reflexivity.
Qed.

Lemma send_handles (localId : string) (data : Frame) (w : World) :
  thinkingIds (snd (send localId data w)) = thinkingIds w
  /\ streamingIds (snd (send localId data w)) = streamingIds w.
Proof.
  destruct (isOpen localId w) eqn:Ho.
  - destruct (send_open localId data w Ho) as (ws & o & _ & _ & _ & ->).
    split; reflexivity.
  - rewrite (send_closed localId data w Ho). split; reflexivity.
Qed.

Lemma resolve_handles (decision : Outcome) (w : World) :
  thinkingIds (resolve decision w) = thinkingIds w
  /\ streamingIds (resolve decision w) = streamingIds w.
Proof.
  destruct decision; simpl;
    unfold handlePermissionAllow, handlePermissionDeny;
    (destruct (pendingPermission w) as [[request ws]|]; [|now split]);
    (destruct (ws_send ws _ w) as [w1|] eqn:E; [|now split]);
    apply ws_send_sessions in E as (_ & _ & Ht & Hs & _); simpl; auto.
Qed.

(** Every event but an inbound frame leaves the aggregator's maps alone. *)
Lemma step_handles (e : Event) (w w' : World) :
  step e w = Some w' ->
  (exists ws data o, e = Ev_message ws data
                     /\ w' = ws_onmessage (owner o) ws data w)
  \/ (thinkingIds w' = thinkingIds w /\ streamingIds w' = streamingIds w).
Proof.
  intros Hstep. destruct e; simpl in Hstep.
  - right. destruct (heap w !! ws) as [o|]; [|discriminate]. simpl in Hstep.
    destruct (readyState o =? CONNECTING)%nat; [|discriminate].
    injection Hstep as <-. unfold ws_onopen.
    destruct (ws_send ws F_connect _) as [w1|] eqn:E; [|now split].
    apply ws_send_sessions in E as (_ & _ & Ht & Hs & _). auto.
  - right. destruct (heap w !! ws) as [o|]; [|discriminate]. simpl in Hstep.
    destruct (readyState o =? CLOSED)%nat; [discriminate|].
    injection Hstep as <-. now split.
  - right. destruct (heap w !! ws) as [o|]; [|discriminate]. simpl in Hstep.
    destruct (readyState o =? CLOSED)%nat; [discriminate|].
    injection Hstep as <-. now split.
  - left. destruct (heap w !! ws) as [o|]; [|discriminate]. simpl in Hstep.
    destruct (_ || _); [|discriminate]. injection Hstep as <-. eauto.
  - right. unfold handleNewSession in Hstep. simpl in Hstep.
    injection Hstep as <-.
    match goal with |- context [connect ?s ?v] =>
      destruct (connect_handles s v) as [-> ->] end.
    now split.
  - right. injection Hstep as <-. unfold handleDeleteSession.
    destruct (disconnect_world id w) as (_ & _ & Ht & Hs & _).
    destruct (opt_str_eq _ _); simpl; auto.
  - right. injection Hstep as <-. now split.
  - right. injection Hstep as <-. now split.
  - right. destruct (session_status id w) as [[| | |]|]; try discriminate;
      injection Hstep as <-; unfold handleConnect; destruct (find _ _);
      first [apply connect_handles | now split].
  - right. destruct (session_status id w) as [[| | |]|]; try discriminate;
      injection Hstep as <-;
      destruct (disconnect_world id w) as (_ & _ & Ht & Hs & _); auto.
  - right. destruct (activeId w) as [active|] eqn:Ha; [|discriminate].
    destruct (_ && _); [|discriminate]. injection Hstep as <-.
    unfold handleSendPrompt. rewrite Ha.
    destruct (negb _); [now split|]. simpl.
    match goal with |- context [send ?a ?d ?v] =>
      destruct (send_handles a d v) as [-> ->] end.
    now split.
  - right. injection Hstep as <-. unfold handleCancel.
    destruct (activeId w); [|now split].
    destruct (negb _); [now split|apply send_handles].
  - right. injection Hstep as <-. unfold handleClearMessages.
    destruct (activeId w); [|now split].
    destruct (negb _); now split.
  - right. destruct (pendingPermission w); [|discriminate].
    injection Hstep as <-. apply (resolve_handles allow).
  - right. destruct (pendingPermission w); [|discriminate].
    injection Hstep as <-. apply (resolve_handles deny).
Qed.

Lemma reachable_handles_truthy (w : World) :
  reachable w -> handles_truthy w.
Proof.
  induction 1 as [clock random|e w w' _ IH Hstep|w clock random _ _].
  - intros k v [H|H]; simpl in H; rewrite lookup_empty in H; discriminate.
  - destruct (step_handles e w w' Hstep)
      as [(ws & data & o & _ & ->)|[Ht Hs]].
    + now apply handles_truthy_ws_onmessage.
    + eapply handles_truthy_same; eauto.
  - intros k v [H|H]; simpl in H; rewrite lookup_empty in H; discriminate.
Qed.

(** X16. In every world the page can reach, [prompt_complete] ends the turn
    of the session whatever state the aggregator is in: afterwards the
    session has no placeholder registered and no streaming message, the
    messages that carry the id of the placeholder that was registered are
    removed and every other message is as it was. *)
Theorem prompt_complete_ends_turn (session_id : string) (ws : handle)
  (w : World) :
  reachable w ->
  let w' := ws_onmessage session_id ws (Some M_prompt_complete) w in
  Idle session_id w'
  /\ forall i s,
       sessions w !! i = Some s ->
       exists s', sessions w' !! i = Some s'
         /\ (Session.id s = session_id ->
             forall p, thinkingIds w !! session_id = Some p ->
                       Session.messages s'
                       = List.filter
                           (fun m => negb (str_eq (ChatMessage.id m) p))
                           (Session.messages s))
         /\ (Session.id s = session_id ->
             thinkingIds w !! session_id = None -> s' = s)
         /\ (Session.id s <> session_id -> s' = s).
Proof.
  intros Hr w'. apply reachable_handles_truthy in Hr.
  destruct (thinkingIds w !! session_id) as [p|] eqn:Hp.
  - assert (Hne : p <> "") by (eapply Hr; eauto).
    assert (Hw' : w' = with_streamingIds (fun m => delete session_id m)
                         (with_thinkingIds (fun m => delete session_id m)
                            (setSession session_id
                               (fun s =>
                                  Session.with_messages
                                    (List.filter
                                       (fun m => negb (str_eq
                                                         (ChatMessage.id m) p))
                                       (Session.messages s)) s) w))).
    { subst w'. unfold ws_onmessage, handleMessage. rewrite Hp.
      rewrite (truthy_Some p Hne). reflexivity. }
    rewrite Hw'. split.
    + split; simpl; apply lookup_delete_eq.
    + intros i s Hi.
      change (sessions (with_streamingIds ?a (with_thinkingIds ?b ?x)))
        with (sessions x).
      rewrite setSession_lookup, Hi. simpl. eexists.
      split; [reflexivity|]. split; [|split].
      * intros -> q [= <-]. now rewrite str_eq_refl.
      * intros; discriminate.
      * intros Hid. apply str_eq_false in Hid. now rewrite Hid.
  - assert (Hw' := prompt_complete_without_placeholder session_id ws w Hp).
    fold w' in Hw'. rewrite Hw'. split.
    + split; simpl; [exact Hp|apply lookup_delete_eq].
    + intros i s Hi. exists s. simpl. split; [exact Hi|].
      split; [intros; discriminate|]. auto.
Qed.

(** ** Registered sockets in reachable worlds *)

Lemma keeps_sockets_refl (w : World) : keeps_sockets w w.
Proof. split; auto. Qed.

Lemma keeps_sockets_trans (w1 w2 w3 : World) :
  keeps_sockets w1 w2 -> keeps_sockets w2 w3 -> keeps_sockets w1 w3.
Proof. intros [A1 B1] [A2 B2]. split; [congruence|auto]. Qed.

Lemma keeps_sockets_owned (w w' : World) :
  keeps_sockets w w' -> registered_owned w -> registered_owned w'.
Proof.
  intros [Hs Hh] H id ws Hreg. rewrite Hs in Hreg. apply Hh, H, Hreg.
Qed.

Lemma owned_alter (f : WebSocket -> WebSocket) (h : list WebSocket)
  (i ws : handle) (id : string) :
  (forall o, owner (f o) = owner o) ->
  owned h ws id -> owned (alter f i h) ws id.
Proof.
  intros Hf (o & Ho & Hid). unfold owned. rewrite list_lookup_alter.
  destruct (decide (i = ws)) as [->|Hne]; [|eauto].
  rewrite Ho. simpl. exists (f o). rewrite Hf. auto.
Qed.

Lemma owned_insert (h : list WebSocket) (i ws : handle) (o o' : WebSocket)
  (id : string) :
  h !! i = Some o -> owner o' = owner o ->
  owned h ws id -> owned (<[i := o']> h) ws id.
Proof.
  intros Hi Ho' (o1 & Ho1 & Hid). unfold owned.
  destruct (decide (i = ws)) as [->|Hne].
  - rewrite list_lookup_insert_eq by (eapply lookup_lt_Some; eauto).
    exists o'. split; [reflexivity|]. congruence.
  - rewrite list_lookup_insert_ne by exact Hne. eauto.
Qed.

Lemma owned_app (h l : list WebSocket) (ws : handle) (id : string) :
  owned h ws id -> owned (h ++ l) ws id.
Proof.
  intros (o & Ho & Hid). exists o. split; [|exact Hid].
  now apply lookup_app_l_Some.
Qed.

Lemma WebSocket_close_owner (o : WebSocket) :
  owner (WebSocket_close o) = owner o.
Proof. unfold WebSocket_close. now destruct (_ <=? _)%nat. Qed.

Lemma ws_send_keeps_sockets (ws : handle) (f : Frame) (w w' : World) :
  ws_send ws f w = Some w' -> keeps_sockets w w'.
Proof.
  unfold ws_send. destruct (heap w !! ws) as [o|] eqn:Ho; [|discriminate].
  unfold WebSocket_send.
  destruct (readyState o =? CONNECTING)%nat; [discriminate|].
  destruct (readyState o =? OPEN)%nat; intros [= <-]; split; simpl;
    try reflexivity; intros ws' id; now apply (owned_insert _ _ _ o).
Qed.

Lemma ws_send_default_keeps_sockets (ws : handle) (f : Frame) (w : World) :
  keeps_sockets w (default w (ws_send ws f w)).
Proof.
  destruct (ws_send ws f w) eqn:E; simpl.
  - eapply ws_send_keeps_sockets; eauto.
  - apply keeps_sockets_refl.
Qed.

Lemma disconnect_keeps_sockets (localId : string) (w : World) :
  keeps_sockets w (disconnect localId w).
Proof.
  unfold disconnect. destruct (sockets w !! localId) as [ws|];
    [|apply keeps_sockets_refl].
  eapply keeps_sockets_trans.
  - apply (ws_send_default_keeps_sockets ws F_disconnect w).
  - unfold default.
    destruct (ws_send ws F_disconnect w) as [w1|]; split; try reflexivity;
      simpl; intros ws' id; apply owned_alter; apply WebSocket_close_owner.
Qed.

Lemma send_keeps_sockets (localId : string) (data : Frame) (w : World) :
  keeps_sockets w (snd (send localId data w)).
Proof.
  unfold send. destruct (sockets w !! localId) as [ws|];
    [|apply keeps_sockets_refl].
  destruct (heap w !! ws) as [o|]; [|apply keeps_sockets_refl].
  destruct (negb _); [apply keeps_sockets_refl|].
  apply ws_send_default_keeps_sockets.
Qed.

Lemma handleUpdate_keeps_sockets (localId : string) (w : World)
  (u : SessionUpdate) :
  keeps_sockets w (handleUpdate localId w u).
Proof.
  unfold handleUpdate.
  repeat match goal with
         | |- context [if ?b then _ else _] => destruct b
         end; split; auto.
Qed.

Lemma handleUpdates_keeps_sockets (localId : string)
  (us : list SessionUpdate) (w : World) :
  keeps_sockets w (handleUpdates localId us w).
Proof.
  revert w. induction us as [|u us IH]; intros w.
  - apply keeps_sockets_refl.
  - rewrite handleUpdates_cons. eapply keeps_sockets_trans; [|apply IH].
    apply handleUpdate_keeps_sockets.
Qed.

Lemma ws_onmessage_keeps_sockets (session_id : string) (ws : handle)
  (data : option Message) (w : World) :
  keeps_sockets w (ws_onmessage session_id ws data w).
Proof.
  unfold ws_onmessage. destruct data as [msg|]; [|apply keeps_sockets_refl].
  destruct msg as [c a|r|us|p| |e|t]; simpl; try (split; auto; fail).
  - destruct c; [|split; auto].
    destruct (ws_send ws F_new_session _) as [w2|] eqn:E; [|split; auto].
    eapply keeps_sockets_trans; [|eapply ws_send_keeps_sockets; exact E].
    split; auto.
  - apply handleUpdates_keeps_sockets.
  - destruct (truthy _); split; auto.
Qed.

Lemma resolve_keeps_sockets (decision : Outcome) (w : World) :
  keeps_sockets w (resolve decision w).
Proof.
  destruct decision; simpl;
    unfold handlePermissionAllow, handlePermissionDeny;
    (destruct (pendingPermission w) as [[request ws]|];
     [|apply keeps_sockets_refl]);
    (destruct (ws_send ws _ w) as [w1|] eqn:E; [|apply keeps_sockets_refl]);
    apply ws_send_keeps_sockets in E as [Hs Hh]; split; auto.
Qed.

Lemma connect_registered_owned (session : Session.t) (w : World) :
  registered_owned w -> registered_owned (connect session w).
Proof.
  intros H. destruct (has_live_socket (Session.id session) w) eqn:E.
  - now rewrite has_live_socket_connect.
  - rewrite (connect_not_live session w E). intros id ws. simpl.
    destruct (decide (Session.id session = id)) as [<-|Hne].
    + rewrite lookup_insert_eq. intros [= <-].
      exists (new_socket session). split; [|reflexivity].
      apply list_lookup_middle. reflexivity.
    + rewrite lookup_insert_ne by exact Hne. intros Hreg.
      apply owned_app. apply H, Hreg.
Qed.

Lemma ws_onclose_registered_owned (session_id : string) (w : World) :
  registered_owned w -> registered_owned (ws_onclose session_id w).
Proof.
  intros H id ws. unfold ws_onclose, onSetSession, setSession. simpl.
  intros Hreg. apply lookup_delete_Some in Hreg as [_ Hreg]. now apply H.
Qed.

Lemma step_registered_owned (e : Event) (w w' : World) :
  step e w = Some w' -> registered_owned w -> registered_owned w'.
Proof.
  intros Hstep Hd. destruct e; simpl in Hstep.
  - destruct (heap w !! ws) as [o|] eqn:Ho; [|discriminate]. simpl in Hstep.
    destruct (readyState o =? CONNECTING)%nat; [|discriminate].
    injection Hstep as <-. eapply keeps_sockets_owned; [|exact Hd].
    eapply keeps_sockets_trans.
    + instantiate (1 := with_heap
                          (fun h => alter (with_readyState OPEN) ws h) w).
      split; [reflexivity|]. simpl. intros ws' id. apply owned_alter.
      reflexivity.
    + unfold ws_onopen. apply ws_send_default_keeps_sockets.
  - destruct (heap w !! ws) as [o|]; [|discriminate]. simpl in Hstep.
    destruct (readyState o =? CLOSED)%nat; [discriminate|].
    injection Hstep as <-. eapply keeps_sockets_owned; [|exact Hd].
    split; auto.
  - destruct (heap w !! ws) as [o|]; [|discriminate]. simpl in Hstep.
    destruct (readyState o =? CLOSED)%nat; [discriminate|].
    injection Hstep as <-. apply ws_onclose_registered_owned.
    eapply keeps_sockets_owned; [|exact Hd].
    split; [reflexivity|]. simpl. intros ws' id. apply owned_alter.
    reflexivity.
  - destruct (heap w !! ws) as [o|] eqn:Ho; [|discriminate]. simpl in Hstep.
    destruct (_ || _) eqn:Hr; [|discriminate]. injection Hstep as <-.
    eapply keeps_sockets_owned; [|exact Hd]. apply ws_onmessage_keeps_sockets.
  - unfold handleNewSession in Hstep. simpl in Hstep.
    injection Hstep as <-. apply connect_registered_owned.
    eapply keeps_sockets_owned; [|exact Hd]. split; auto.
  - injection Hstep as <-. eapply keeps_sockets_owned; [|exact Hd].
    unfold handleDeleteSession.
    eapply keeps_sockets_trans; [apply disconnect_keeps_sockets|].
    destruct (opt_str_eq _ _); split; auto.
  - injection Hstep as <-. eapply keeps_sockets_owned; [|exact Hd].
    split; auto.
  - injection Hstep as <-. eapply keeps_sockets_owned; [|exact Hd].
    split; auto.
  - destruct (session_status id w) as [[| | |]|]; try discriminate;
      injection Hstep as <-; unfold handleConnect; destruct (find _ _);
      first [now apply connect_registered_owned | exact Hd].
  - destruct (session_status id w) as [[| | |]|]; try discriminate;
      injection Hstep as <-; (eapply keeps_sockets_owned; [|exact Hd]);
      apply disconnect_keeps_sockets.
  - destruct (activeId w) as [active|] eqn:Ha; [|discriminate].
    destruct (_ && _); [|discriminate]. injection Hstep as <-.
    eapply keeps_sockets_owned; [|exact Hd].
    unfold handleSendPrompt. rewrite Ha.
    destruct (negb _); [apply keeps_sockets_refl|]. simpl.
    eapply keeps_sockets_trans; [|apply send_keeps_sockets]. split; auto.
  - injection Hstep as <-. eapply keeps_sockets_owned; [|exact Hd].
    unfold handleCancel. destruct (activeId w);
      [|apply keeps_sockets_refl].
    destruct (negb _); [apply keeps_sockets_refl|apply send_keeps_sockets].
  - injection Hstep as <-. eapply keeps_sockets_owned; [|exact Hd].
    unfold handleClearMessages. destruct (activeId w);
      [|apply keeps_sockets_refl].
    destruct (negb _); [apply keeps_sockets_refl|split; auto].
  - destruct (pendingPermission w); [|discriminate]. injection Hstep as <-.
    eapply keeps_sockets_owned; [|exact Hd].
    apply (resolve_keeps_sockets allow).
  - destruct (pendingPermission w); [|discriminate]. injection Hstep as <-.
    eapply keeps_sockets_owned; [|exact Hd].
    apply (resolve_keeps_sockets deny).
Qed.

(** X17. In every world the page can reach, a socket that is registered for
    a session exists and is one that [connect] created for that session, so
    that its handlers act on that session. [disconnect] followed by the close
    event of that socket, unless the socket was closed already, then removes
    the registration. *)
Theorem reachable_registered_owned (w : World) (id : string) (ws : handle) :
  reachable w ->
  sockets w !! id = Some ws ->
  exists o,
    heap w !! ws = Some o /\ owner o = id
    /\ (readyState o <> CLOSED ->
        exists w2, run [Ev_close ws] (disconnect id w) = Some w2
                   /\ sockets w2 !! id = None).
Proof.
  intros Hr Hreg.
  assert (Hown : registered_owned w).
  { clear Hreg. induction Hr as [clock random|e w w' _ IH Hstep
                                |w clock random _ _].
    - intros k h H. simpl in H. rewrite lookup_empty in H. discriminate.
    - eapply step_registered_owned; eauto.
    - intros k h H. simpl in H. rewrite lookup_empty in H. discriminate. }
  destruct (Hown id ws Hreg) as (o & Ho & Hid).
  exists o. split; [exact Ho|]. split; [exact Hid|]. intros Hcl.
  destruct (disconnect_world id w) as (_ & Hso & _ & _ & _ & _ & Hh).
  specialize (Hh ws o Hreg Ho).
  set (o1 := WebSocket_close (default o (WebSocket_send F_disconnect o))) in *.
  assert (Hown1 : owner o1 = id).
  { subst o1. rewrite WebSocket_close_owner. unfold WebSocket_send.
    destruct (readyState o =? CONNECTING)%nat; simpl; [exact Hid|].
    destruct (readyState o =? OPEN)%nat; exact Hid. }
  assert (Hr1 : readyState o1 <> CLOSED).
  { subst o1. unfold WebSocket_close, WebSocket_send.
    destruct (readyState o =? CONNECTING)%nat eqn:Ec; simpl.
    - apply Nat.eqb_eq in Ec. rewrite Ec. simpl. discriminate.
    - destruct (readyState o =? OPEN)%nat eqn:Eo; simpl.
      + apply Nat.eqb_eq in Eo. rewrite Eo. simpl. discriminate.
      + destruct (readyState o <=? OPEN)%nat; simpl;
          [discriminate|exact Hcl]. }
  clearbody o1. eexists. split.
  - rewrite run_cons, (step_close ws _ o1 Hh Hr1). reflexivity.
  - rewrite Hown1. unfold ws_onclose, onSetSession, setSession. simpl.
    apply lookup_delete_eq.
Qed.

(** ** The numeral in an id *)

Lemma digit36_value_digit36 (d : N) :
  (d < 36)%N -> digit36_value (digit36 d) = d.
Proof.
  intros Hd. unfold digit36_value, digit36.
  destruct (d <? 10)%N eqn:E.
  - apply N.ltb_lt in E. rewrite N_ascii_embedding by lia.
    assert (H : (48 + d <? 58)%N = true) by (apply N.ltb_lt; lia).
    rewrite H. lia.
  - apply N.ltb_ge in E. rewrite N_ascii_embedding by lia.
    assert (H : (87 + d <? 58)%N = false) by (apply N.ltb_ge; lia).
    rewrite H. lia.
Qed.

Lemma toString36_aux_acc (fuel : nat) (n : N) (acc : string) :
  toString36_aux fuel n acc = toString36_aux fuel n "" +:+ acc.
Proof.
  revert n acc. induction fuel as [|fuel IH]; intros n acc; simpl.
  - reflexivity.
  - destruct (n / 36 =? 0)%N; [reflexivity|].
    rewrite IH. rewrite (IH _ (String _ "")). rewrite append_assoc.
    reflexivity.
Qed.

Lemma parseInt36_aux_app (a b : string) (acc : N) :
  parseInt36_aux (a +:+ b) acc = parseInt36_aux b (parseInt36_aux a acc).
Proof.
  revert acc. induction a as [|c a IH]; intros acc; [reflexivity|].
  change (parseInt36_aux (a +:+ b) (acc * 36 + digit36_value c)
          = parseInt36_aux b
              (parseInt36_aux a (acc * 36 + digit36_value c))).
  apply IH.
Qed.

Lemma parseInt36_toString36_aux (fuel : nat) (n : N) :
  (n < 36 ^ N.of_nat (S fuel))%N ->
  parseInt36 (toString36_aux fuel n "") = n.
Proof.
  revert n. induction fuel as [|fuel IH]; intros n Hn.
  - simpl in *. unfold parseInt36. simpl.
    rewrite digit36_value_digit36 by (apply N.mod_lt; discriminate).
    rewrite N.mod_small by (change (36 ^ 1)%N with 36%N in Hn; exact Hn).
    reflexivity.
  - change (toString36_aux (S fuel) n "")
      with (if (n / 36 =? 0)%N
            then String (digit36 (n mod 36)) ""
            else toString36_aux fuel (n / 36)
                   (String (digit36 (n mod 36)) "")).
    destruct (n / 36 =? 0)%N eqn:E.
    + apply N.eqb_eq in E. unfold parseInt36. simpl.
      rewrite digit36_value_digit36 by (apply N.mod_lt; discriminate).
      pose proof (N.div_mod n 36 ltac:(discriminate)) as Hdm.
      rewrite E in Hdm. lia.
    + rewrite toString36_aux_acc. unfold parseInt36.
      rewrite parseInt36_aux_app. fold (parseInt36 (toString36_aux fuel
                                                      (n / 36) "")).
      rewrite IH.
      * simpl.
        rewrite digit36_value_digit36 by (apply N.mod_lt; discriminate).
        pose proof (N.div_mod n 36 ltac:(discriminate)) as Hdm. lia.
      * apply N.Div0.div_lt_upper_bound.
        rewrite Nat2N.inj_succ, N.pow_succ_r' in Hn. exact Hn.
Qed.

Lemma parseInt36_toString36 (n : N) : parseInt36 (toString36 n) = n.
Proof.
  unfold toString36. apply parseInt36_toString36_aux.
  rewrite Nat2N.inj_succ, N2Nat.id.
  destruct (N.eq_dec n 0%N) as [->|Hn]; [reflexivity|].
  apply N.lt_le_trans with (2 ^ N.succ (N.log2 n))%N.
  - apply N.log2_spec. lia.
  - apply N.pow_le_mono_l. lia.
Qed.

Lemma length_append (a b : string) :
  String.length (a +:+ b) = String.length a + String.length b.
Proof.
  induction a as [|x a IH]; [reflexivity|].
  change (S (String.length (a +:+ b))
          = S (String.length a + String.length b)).
  now rewrite IH.
Qed.

Lemma append_cancel_r (a b r : string) : a +:+ r = b +:+ r -> a = b.
Proof.
  revert b. induction a as [|x a IH]; intros b H.
  - destruct b as [|y b]; [reflexivity|]. exfalso.
    apply (f_equal String.length) in H.
    change (String.length r = S (String.length (b +:+ r))) in H.
    rewrite length_append in H. lia.
  - destruct b as [|y b].
    + exfalso. apply (f_equal String.length) in H.
      change (S (String.length (a +:+ r)) = String.length r) in H.
      rewrite length_append in H. lia.
    + change (String x (a +:+ r) = String y (b +:+ r)) in H.
      injection H as -> H. f_equal. now apply IH.
Qed.

(** X18. The numeral that [makeId] puts at the head of an id is the clock
    reading in base 36 and reads back as that number, so that numerals of
    different readings differ: two ids drawn at different clock readings are
    different whenever their random suffixes are the same. *)
Theorem makeId_distinct_clock (w1 w2 : World) :
  Date_now w1 (tick w1) <> Date_now w2 (tick w2) ->
  Math_random w1 (tick w1) = Math_random w2 (tick w2) ->
  parseInt36 (toString36 (Date_now w1 (tick w1))) = Date_now w1 (tick w1)
  /\ fst (makeId w1) <> fst (makeId w2).
Proof.
  intros Hclock Hrand. split; [apply parseInt36_toString36|].
  unfold makeId. simpl. rewrite Hrand. intros H.
  apply append_cancel_r in H. apply Hclock.
  rewrite <- (parseInt36_toString36 (Date_now w1 (tick w1))), H.
  apply parseInt36_toString36.
Qed.

Lemma makeId_distinct_clock_witness :
  fst (makeId (init None sample_clock sample_random))
  <> fst (makeId (with_tick 1 (init None sample_clock sample_random))).
Proof.
  apply (makeId_distinct_clock (init None sample_clock sample_random)
           (with_tick 1 (init None sample_clock sample_random))).
  - vm_compute. discriminate.
  - reflexivity.
Defined.

(** ** Inline rendering *)

Lemma span_no_backtick_spec (s : string) :
  s = fst (span_no_backtick s) +:+ snd (span_no_backtick s)
  /\ has_backtick (fst (span_no_backtick s)) = false.
Proof.
  induction s as [|c s [IH1 IH2]]; simpl; [auto|].
  destruct (Ascii.eqb c backtick) eqn:E; simpl; [auto|].
  destruct (span_no_backtick s) as [a b]. simpl in *.
  rewrite E. split; [now rewrite IH1 at 1|exact IH2].
Qed.

Lemma span_no_backtick_rest (s : string) :
  match snd (span_no_backtick s) with
  | EmptyString => True
  | String t _ => t = backtick
  end.
Proof.
  induction s as [|c s IH]; simpl; [exact I|].
  destruct (Ascii.eqb c backtick) eqn:E; simpl.
  - now apply Ascii.eqb_eq.
  - destruct (span_no_backtick s) as [a b]. exact IH.
Qed.

Lemma match_here_spec (s code after : string) :
  match_here s = Some (code, after) ->
  s = String backtick (code +:+ String backtick after)
  /\ code <> EmptyString /\ has_backtick code = false.
Proof.
  destruct s as [|c rest]; simpl; [discriminate|].
  destruct (Ascii.eqb c backtick) eqn:E; [|discriminate].
  apply Ascii.eqb_eq in E. subst c.
  destruct (span_no_backtick_spec rest) as [H1 H2].
  destruct (span_no_backtick rest) as [[|g gs] [|t after']] eqn:Es;
    try discriminate.
  intros [= <- <-]. simpl in H1, H2.
  assert (Ht : t = backtick).
  { pose proof (span_no_backtick_rest rest) as Hr. now rewrite Es in Hr. }
  subst t. split; [|split; [discriminate|exact H2]].
  now rewrite H1 at 1.
Qed.

Lemma regex_exec_spec (s before code after : string) :
  regex_exec s = Some (before, code, after) ->
  s = before +:+ String backtick (code +:+ String backtick after)
  /\ code <> EmptyString /\ has_backtick code = false.
Proof.
  revert before. induction s as [|c s IH]; intros before.
  - simpl. discriminate.
  - change (regex_exec (String c s))
      with (match match_here (String c s) with
            | Some (code, after) => Some (EmptyString, code, after)
            | None =>
                match regex_exec s with
                | Some (before, code, after) =>
                    Some (String c before, code, after)
                | None => None
                end
            end).
    destruct (match_here (String c s)) as [[code' after']|] eqn:Em.
    + intros [= <- <- <-]. now apply match_here_spec.
    + destruct (regex_exec s) as [[[b' c'] a']|]; [|discriminate].
      intros [= <- <- <-]. destruct (IH b' eq_refl) as (H1 & H2 & H3).
      split; [|auto].
      change (String c s
              = String c
                  (b' +:+ String backtick (c' +:+ String backtick a'))).
      now rewrite H1 at 1.
Qed.

Lemma truthy_string (s : string) :
  truthy (Some s) = true <-> s <> EmptyString.
Proof.
  unfold truthy. destruct s; simpl; split; congruence.
Qed.

Lemma parts_source_cons (p : InlinePart) (l : list InlinePart) :
  parts_source (p :: l) = part_source p +:+ parts_source l.
Proof. reflexivity. Qed.

Lemma code_source (code after : string) :
  part_source (InlineCode code) +:+ after
  = String backtick (code +:+ String backtick after).
Proof.
  change (String backtick ((code +:+ String backtick EmptyString) +:+ after)
          = String backtick (code +:+ String backtick after)).
  now rewrite append_assoc.
Qed.

Lemma renderInline_loop_spec (fuel : nat) (s : string) :
  String.length s < fuel ->
  parts_source (renderInline_loop fuel s) = s
  /\ Forall part_well_formed (renderInline_loop fuel s).
Proof.
  revert s. induction fuel as [|fuel IH]; intros s Hlen; [lia|].
  cbn [renderInline_loop]. destruct (regex_exec s) as [[[before code] after]|] eqn:E.
  - destruct (regex_exec_spec s before code after E) as (Hs & Hc & Hb).
    assert (Hafter : String.length after < fuel).
    { apply (f_equal String.length) in Hs. rewrite length_append in Hs.
      simpl in Hs. rewrite length_append in Hs. simpl in Hs. lia. }
    destruct (IH after Hafter) as [IH1 IH2].
    destruct (truthy (Some before)) eqn:Et.
    + split.
      * change (parts_source (Plain before :: InlineCode code
                              :: renderInline_loop fuel after) = s).
        rewrite !parts_source_cons, IH1, code_source. symmetry. exact Hs.
      * constructor; [now apply truthy_string|].
        constructor; [split; assumption|exact IH2].
    + assert (Hb0 : before = EmptyString).
      { destruct before; [reflexivity|discriminate]. }
      subst before. split.
      * change (parts_source (InlineCode code
                              :: renderInline_loop fuel after) = s).
        rewrite parts_source_cons, IH1, code_source. symmetry. exact Hs.
      * constructor; [split; assumption|exact IH2].
  - destruct (truthy (Some s)) eqn:Et.
    + split; [apply append_nil_r|].
      constructor; [now apply truthy_string|constructor].
    + destruct s; [|discriminate]. split; [reflexivity|constructor].
Qed.

Lemma regex_exec_no_backtick (s : string) :
  has_backtick s = false -> regex_exec s = None.
Proof.
  induction s as [|c s IH]; [reflexivity|]. simpl has_backtick.
  intros H. apply orb_false_iff in H as [Hc Hs].
  change (regex_exec (String c s))
    with (match match_here (String c s) with
          | Some (code, after) => Some (EmptyString, code, after)
          | None =>
              match regex_exec s with
              | Some (before, code, after) =>
                  Some (String c before, code, after)
              | None => None
              end
          end).
  simpl match_here. rewrite Hc, (IH Hs). reflexivity.
Qed.

(** X19. [renderInline] loses nothing of the text: its parts, the code spans
    put back between backticks, make up the text again in order. No part is
    empty and no code span holds a backtick; a text without a backtick is
    one plain part, or no part at all when it is empty. *)
Theorem renderInline_round_trip (text : string) :
  parts_source (renderInline text) = text
  /\ Forall part_well_formed (renderInline text)
  /\ (has_backtick text = false ->
      renderInline text
      = if truthy (Some text) then [Plain text] else []).
Proof.
  unfold renderInline.
  destruct (renderInline_loop_spec (S (String.length text)) text
              ltac:(lia)) as [H1 H2].
  split; [exact H1|]. split; [exact H2|].
  intros Hb. cbn [renderInline_loop].
  now rewrite (regex_exec_no_backtick text Hb).
Qed.

Example renderInline_sample :
  renderInline "run `npm test` or ``, then `x"
  = [Plain "run "; InlineCode "npm test"; Plain " or `";
     InlineCode ", then "; Plain "x"].
Proof. vm_compute. reflexivity. Qed.

(** ** After the connection is reported lost or is closed *)

(** X20. A [status] frame that reports no connection sets the session to
    [disconnected] and clears its remote session id, but closes nothing: the
    socket stays open and registered. The session shown as disconnected can
    still send, and Reconnect does nothing to it. *)
Theorem status_false_keeps_socket (session : Session.t) (ws : handle)
  (o : WebSocket) (info : option AgentInfo) (w : World) (i : nat)
  (s : Session.t) :
  sockets w !! Session.id session = Some ws ->
  heap w !! ws = Some o -> readyState o = OPEN ->
  owner o = Session.id session ->
  sessions w !! i = Some s -> Session.id s = Session.id session ->
  exists w',
    step (Ev_message ws (Some (M_status false info))) w = Some w'
    /\ sessions w' !! i
       = Some (Session.with_sessionId None
                 (Session.with_status disconnected s))
    /\ heap w' = heap w /\ sockets w' = sockets w
    /\ isOpen (Session.id session) w' = true
    /\ connect session w' = w'.
Proof.
  intros Hreg Ho Hr Hown Hi Hid.
  eexists. split; [apply (step_message ws _ w o Ho Hr)|].
  rewrite Hown. unfold ws_onmessage, handleMessage, onSetSession.
  split.
  { rewrite setSession_lookup, Hi. simpl.
    apply str_eq_true in Hid. now rewrite Hid. }
  split; [reflexivity|]. split; [reflexivity|]. split.
  - unfold isOpen. simpl. rewrite Hreg. simpl. rewrite Ho, Hr. reflexivity.
  - apply has_live_socket_connect. unfold has_live_socket. simpl.
    rewrite Hreg. simpl. rewrite Ho, Hr. reflexivity.
Qed.

Lemma status_false_keeps_socket_witness :
  exists w',
    step (Ev_message 0 (Some (M_status false None))) sample_connected
    = Some w'
    /\ isOpen s1 w' = true /\ connect sample_session w' = w'.
Proof.
  assert (H1 : sockets sample_connected !! Session.id sample_session = Some 0)
    by (vm_compute; reflexivity).
  assert (H2 : heap sample_connected !! 0 = Some sample_socket)
    by (vm_compute; reflexivity).
  assert (H3 : sessions sample_connected !! 0 = Some sample_session)
    by (vm_compute; reflexivity).
  destruct (status_false_keeps_socket sample_session 0 sample_socket None
              sample_connected 0 sample_session H1 H2 eq_refl eq_refl H3
              eq_refl) as (w' & Hstep & _ & _ & _ & Hopen & Hc).
  exists w'. auto.
Defined.

(** X21. The close handler does not end the turn: the aggregator's handles
    stay registered. When a message was streaming as the connection closed,
    the text deltas that arrive later for the session, over whatever socket,
    are appended to that same message. *)
Theorem close_does_not_end_turn (session_id k : string)
  (us : list SessionUpdate) (w : World) (i : nat) (s : Session.t) :
  thinkingIds w !! session_id = None ->
  streamingIds w !! session_id = Some k -> k <> "" ->
  Forall (fun u => is_text_delta u = true) us ->
  sessions w !! i = Some s -> Session.id s = session_id ->
  let w1 := ws_onclose session_id w in
  streamingIds w1 !! session_id = Some k
  /\ thinkingIds w1 = thinkingIds w
  /\ exists s',
       sessions (handleUpdates session_id us w1) !! i = Some s'
       /\ Session.status s' = disconnected
       /\ Session.messages s'
          = List.map (bump k (concat_deltas us)) (Session.messages s).
Proof.
  intros Ht Hs Hk Hus Hi Hid w1.
  assert (Ht1 : thinkingIds w1 !! session_id = None) by exact Ht.
  assert (Hs1 : streamingIds w1 !! session_id = Some k) by exact Hs.
  split; [exact Hs1|]. split; [reflexivity|].
  rewrite (handleUpdates_streaming session_id k us w1 Ht1 Hs1 Hk Hus).
  rewrite setSession_lookup. subst w1. unfold ws_onclose, onSetSession.
  rewrite setSession_lookup. simpl. rewrite Hi. simpl.
  apply str_eq_true in Hid. rewrite Hid. simpl. rewrite Hid.
  eexists. split; [reflexivity|]. split; reflexivity.
Qed.

Lemma close_does_not_end_turn_witness :
  exists s',
    sessions (handleUpdates s1 [text_delta "b"]
                (ws_onclose s1 sample_streaming)) !! 0 = Some s'
    /\ List.map ChatMessage.content (Session.messages s') = ["ab"].
Proof.
  assert (H1 : thinkingIds sample_streaming !! s1 = None)
    by (vm_compute; reflexivity).
  assert (H2 : streamingIds sample_streaming !! s1 = Some "loyw3v2aab12c")
    by (vm_compute; reflexivity).
  assert (H3 : sessions sample_streaming !! 0
               = Some (Session.with_messages
                         [streamed_message sample_connected "a"]
                         sample_session))
    by (vm_compute; reflexivity).
  destruct (close_does_not_end_turn s1 "loyw3v2aab12c" [text_delta "b"]
              sample_streaming 0 _ H1 H2 ltac:(discriminate)
              ltac:(repeat constructor) H3 eq_refl)
    as (_ & _ & s' & Hs' & _ & Hm).
  exists s'. split; [exact Hs'|]. rewrite Hm. vm_compute. reflexivity.
Defined.

(** X22. The displayed request outlives its connection: the close event of
    the socket that delivered it leaves it displayed. The user's answer is
    then handed to the closed socket, which discards it, no other socket is
    written to, the tool messages are updated as for an open socket and the
    dialog is cleared. *)
Theorem displayed_request_survives_close (w : World)
  (request : PermissionRequest) (ws : handle) (o : WebSocket)
  (decision : Outcome) :
  pendingPermission w = Some (request, ws) ->
  heap w !! ws = Some o -> readyState o <> CLOSED ->
  exists w1,
    step (Ev_close ws) w = Some w1
    /\ pendingPermission w1 = Some (request, ws)
    /\ heap (resolve decision w1) = heap w1
    /\ pendingPermission (resolve decision w1) = None
    /\ forall i j s m,
         sessions w1 !! i = Some s -> Session.messages s !! j = Some m ->
         exists s',
           sessions (resolve decision w1) !! i = Some s'
           /\ Session.messages s' !! j
              = Some (resolve_message decision request m).
Proof.
  intros Hp Ho Hr.
  eexists. split; [apply (step_close ws w o Ho Hr)|].
  set (w1 := ws_onclose (owner o)
               (with_heap (fun h => alter (with_readyState CLOSED) ws h) w)).
  assert (Hp1 : pendingPermission w1 = Some (request, ws)) by exact Hp.
  assert (Ho1 : heap w1 !! ws = Some (with_readyState CLOSED o)).
  { subst w1. unfold ws_onclose, onSetSession, setSession. simpl.
    rewrite list_lookup_alter_eq, Ho. reflexivity. }
  assert (Hr1 : readyState (with_readyState CLOSED o) <> CONNECTING)
    by discriminate.
  clearbody w1.
  pose proof (resolve_displayed decision w1 request ws _ Hp1 Ho1 Hr1) as Hres.
  simpl in Hres. split; [exact Hp1|]. split; [|split].
  - rewrite Hres. simpl. now apply list_insert_id.
  - rewrite Hres. reflexivity.
  - intros i j s m Hi Hj.
    destruct (resolve_displayed_message decision w1 request ws _ i j s m
                Hp1 Ho1 Hr1 Hi Hj) as (s' & Hs' & Hm' & _).
    eauto.
Qed.

Lemma displayed_request_survives_close_witness :
  exists w1,
    step (Ev_close 0) sample_two_requests = Some w1
    /\ pendingPermission w1 = Some (write_file, 0)
    /\ heap (resolve deny w1) = heap w1.
Proof.
  assert (H1 : pendingPermission sample_two_requests = Some (write_file, 0))
    by (vm_compute; reflexivity).
  assert (H2 : heap sample_two_requests !! 0 = Some sample_socket)
    by (vm_compute; reflexivity).
  destruct (displayed_request_survives_close sample_two_requests write_file
              0 sample_socket deny H1 H2 ltac:(discriminate))
    as (w1 & Hstep & Hp & Hh & _).
  exists w1. auto.
Defined.

(** ** The further properties on the sample run *)


Lemma handleSendPrompt_records_then_sends_witness :
  sockets (handleSendPrompt "hi" sample_connected) = sockets sample_connected.
Proof.
  assert (H1 : activeId sample_connected = Some s1)
    by (vm_compute; reflexivity).
  apply (handleSendPrompt_records_then_sends "hi" s1 sample_connected H1).
  discriminate.
Defined.

Lemma clear_while_streaming_loses_deltas_witness :
  exists s',
    sessions (handleUpdates s1 [text_delta "b"]
                (handleClearMessages sample_streaming)) !! 0 = Some s'
    /\ Session.messages s' = [].
Proof.
  assert (H1 : activeId sample_streaming = Some s1)
    by (vm_compute; reflexivity).
  assert (H2 : thinkingIds sample_streaming !! s1 = None)
    by (vm_compute; reflexivity).
  assert (H3 : streamingIds sample_streaming !! s1 = Some "loyw3v2aab12c")
    by (vm_compute; reflexivity).
  assert (H4 : sessions sample_streaming !! 0
               = Some (Session.with_messages
                         [streamed_message sample_connected "a"]
                         sample_session))
    by (vm_compute; reflexivity).
  destruct (clear_while_streaming_loses_deltas s1 "loyw3v2aab12c"
              [text_delta "b"] sample_streaming H1 ltac:(discriminate)
              H2 H3 ltac:(discriminate) ltac:(repeat constructor))
    as (_ & H).
  destruct (H 0 _ H4) as (s' & Hs' & Hm & _).
  exists s'. split; [exact Hs'|]. now apply Hm.
Defined.

Lemma thinking_turn_witness :
  Idle s1
    (deliver s1 0
       (List.map (fun b => M_session_update (Some b))
          [[thinking_start; text_delta "Hel"]; [text_delta "lo"]]
        ++ [M_prompt_complete]) sample_connected).
Proof.
  assert (H : Idle s1 sample_connected) by (split; vm_compute; reflexivity).
  exact (proj1 (thinking_turn s1 0
                  [[thinking_start; text_delta "Hel"]; [text_delta "lo"]]
                  thinking_start (text_delta "Hel") [text_delta "lo"]
                  sample_connected eq_refl eq_refl
                  ltac:(repeat constructor) H)).
Defined.

Lemma prompt_complete_ends_turn_witness :
  Idle s1 (ws_onmessage s1 0 (Some M_prompt_complete) sample_streaming).
Proof.
  exact (proj1 (prompt_complete_ends_turn s1 0 sample_streaming
                  sample_streaming_reachable)).
Defined.

Lemma reachable_registered_owned_witness :
  exists o, heap sample_connected !! 0 = Some o /\ owner o = s1.
Proof.
  assert (H : sockets sample_connected !! s1 = Some 0)
    by (vm_compute; reflexivity).
  destruct (reachable_registered_owned sample_connected s1 0
              sample_connected_reachable H) as (o & Ho & Hown & _).
  exists o. auto.
Defined.
